(** * Client-side orchestration of the label checker: a shallow embedding

    The development follows the JavaScript sources of the front end:

    - [utils/compress.js]  : [Compress]   (image preprocessing)
    - [utils/api.js]       : [Scheduler]  (chunked, bounded-concurrency upload)
    - [hooks/useAnalysis]  : [Controller] (the per-job state machine)
    - [components/UploadZone] : [UploadZone] (file acceptance, CSV rows)

    Conventions.  JavaScript numbers that the code only uses as integers
    (lengths, indices, byte sizes, pixel dimensions, millisecond clock
    readings) are [Z] or [nat].  Where the code divides or multiplies
    ([Math.round (x / 1000)], [Math.round (width * scale)]) every
    operation is rounded to binary64 as in JavaScript: its exact rational
    result is computed in [Q] and then taken to the nearest double by
    [binary64].  Strings are sequences of code units below 256.
    Asynchronous code is cut at its [await] points: every synchronous
    segment is a state transformer, and the environment (network,
    browser, user, React's scheduler) chooses which segment runs next. *)

From Stdlib Require Import ZArith QArith Qround Qpower List String Ascii Bool Lia Lqa.
From stdpp Require Import gmap strings list pretty.

Local Open Scope Z_scope.

(** ** Values shared by the modules *)

(** A browser [File]: the fields the code reads. *)
Record File := mkFile {
  name : string;
  size_bytes : Z;          (* file.size *)
  type : string;           (* file.type, the declared media type *)
  lastModified : Z;
  content : string         (* the bytes, opaque to the code *)
}.

(** [Math.round]: nearest integer, ties towards +infinity. *)
Definition Math_round (x : Q) : Z := Qfloor (x + (1 # 2))%Q.

(** *** Binary64 rounding *)

(** [2 ^ e], for an exponent of either sign. *)
Definition pow2 (e : Z) : Q := (2 ^ e)%Q.

(** The exponent [l] with [2 ^ l <= x < 2 ^ (l + 1)], for [0 < x]. *)
Definition floor_log2 (x : Q) : Z :=
  let k := Z.log2 (Qnum x) - Z.log2 (Zpos (Qden x)) in
  if Qle_bool (pow2 k) x then k else k - 1.

(** The integer nearest to [x]; a tie goes to the even one. *)
Definition round_half_even (x : Q) : Z :=
  let f := Qfloor x in
  match (x - inject_Z f ?= 1 # 2)%Q with
  | Lt => f
  | Gt => f + 1
  | Eq => if Z.even f then f else f + 1
  end.

(** The double nearest to [x > 0]: a significand of 53 bits, so an
    integer from [2 ^ 52] to [2 ^ 53], times a power of two. *)
Definition binary64_pos (x : Q) : Q :=
  let e := floor_log2 x - 52 in
  (inject_Z (round_half_even (x / pow2 e)) * pow2 e)%Q.

(** The value of a JavaScript arithmetic operation whose exact result is
    [x]: round to nearest, ties to even.  The range of the exponent is
    not part of the model: the numbers of this program are integers below
    [2 ^ 53], quotients of two of them and products with such a
    quotient, all far from overflow and from the subnormal range. *)
Definition binary64 (x : Q) : Q :=
  match Qnum x with
  | 0 => 0%Q
  | Zpos _ => binary64_pos x
  | Zneg _ => (- binary64_pos (- x))%Q
  end.

(** ** The analysis controller ([useAnalysis]) *)

Module Controller.

Inductive AnalysisStatus := Idle | Uploading | Streaming | Complete | Error.

#[export] Instance AnalysisStatus_eq_dec : EqDecision AnalysisStatus.
Proof. solve_decision. Defined.

(** [EventSource.readyState]. *)
Inductive ReadyState := CONNECTING | OPEN | CLOSED.

#[export] Instance ReadyState_eq_dec : EqDecision ReadyState.
Proof. solve_decision. Defined.

(** The parsed [data] of a [result] or [error] stream event: the client
    index and the remaining fields, which the controller never inspects. *)
Record ResultData := mkData {
  client_index : Z;
  fields : string
}.

(** What [next.set] stores: [data] itself for a result, and
    [{ ...data, _error: true }] for an error. *)
Record ResultRecord := mkRecord {
  rec_data : ResultData;
  _error : bool
}.

Record DonePayload := mkDone {
  unmatched_csv_rows : option (list string)
}.

(** What the completion effect takes from the render that scheduled it:
    the values of [results.size], [total] and [status] in that render.
    They are its dependency list and the only state its guard reads. *)
Record Deps := mkDeps {
  dep_size : nat;
  dep_total : Z;
  dep_status : AnalysisStatus
}.

#[export] Instance Deps_eq_dec : EqDecision Deps.
Proof. solve_decision. Defined.

(** The hook's state: the seven [useState] cells, the three refs, the
    [EventSource] objects the hook has created so far (an object is named
    by its position in [sources]; its entry is its [readyState]), and what
    React keeps for the effect: the dependency values of the last render
    ([rendered], [None] before the first one) and the effect that a render
    has scheduled and that has not run yet ([pending]).

    A cell holds the value that the state updates queued so far leave in
    it.  Every update of the hook is a constant or a function of the
    previous value, and React applies the queue in order, so this is the
    value that the next render shows. *)
Record State := mkState {
  status : AnalysisStatus;
  results : gmap Z ResultRecord;
  total : Z;
  error : option string;
  duplicateIds : list string;
  unmatchedCsvRows : list string;
  elapsedSeconds : option Z;
  eventSourceRef : option nat;
  startTimeRef : option Z;
  donePayloadRef : option DonePayload;
  sources : list ReadyState;
  rendered : option Deps;
  pending : option Deps
}.

Definition initial : State :=
  mkState Idle ∅ 0 None [] [] None None None None [] None None.

(** [progress = results.size]: derived on every render, not stored. *)
Definition progress (st : State) : nat := size (results st).

Definition setStatus (f : AnalysisStatus -> AnalysisStatus) (st : State) : State :=
  mkState (f (status st)) (results st) (total st) (error st) (duplicateIds st)
    (unmatchedCsvRows st) (elapsedSeconds st) (eventSourceRef st)
    (startTimeRef st) (donePayloadRef st) (sources st) (rendered st)
    (pending st).

Definition setResults (f : gmap Z ResultRecord -> gmap Z ResultRecord)
    (st : State) : State :=
  mkState (status st) (f (results st)) (total st) (error st) (duplicateIds st)
    (unmatchedCsvRows st) (elapsedSeconds st) (eventSourceRef st)
    (startTimeRef st) (donePayloadRef st) (sources st) (rendered st)
    (pending st).

Definition setTotal (n : Z) (st : State) : State :=
  mkState (status st) (results st) n (error st) (duplicateIds st)
    (unmatchedCsvRows st) (elapsedSeconds st) (eventSourceRef st)
    (startTimeRef st) (donePayloadRef st) (sources st) (rendered st)
    (pending st).

Definition setError (e : option string) (st : State) : State :=
  mkState (status st) (results st) (total st) e (duplicateIds st)
    (unmatchedCsvRows st) (elapsedSeconds st) (eventSourceRef st)
    (startTimeRef st) (donePayloadRef st) (sources st) (rendered st)
    (pending st).

Definition setDuplicateIds (l : list string) (st : State) : State :=
  mkState (status st) (results st) (total st) (error st) l
    (unmatchedCsvRows st) (elapsedSeconds st) (eventSourceRef st)
    (startTimeRef st) (donePayloadRef st) (sources st) (rendered st)
    (pending st).

Definition setUnmatchedCsvRows (l : list string) (st : State) : State :=
  mkState (status st) (results st) (total st) (error st) (duplicateIds st)
    l (elapsedSeconds st) (eventSourceRef st)
    (startTimeRef st) (donePayloadRef st) (sources st) (rendered st)
    (pending st).

Definition setElapsedSeconds (e : option Z) (st : State) : State :=
  mkState (status st) (results st) (total st) (error st) (duplicateIds st)
    (unmatchedCsvRows st) e (eventSourceRef st)
    (startTimeRef st) (donePayloadRef st) (sources st) (rendered st)
    (pending st).

Definition set_eventSourceRef (r : option nat) (st : State) : State :=
  mkState (status st) (results st) (total st) (error st) (duplicateIds st)
    (unmatchedCsvRows st) (elapsedSeconds st) r
    (startTimeRef st) (donePayloadRef st) (sources st) (rendered st)
    (pending st).

Definition set_startTimeRef (t : option Z) (st : State) : State :=
  mkState (status st) (results st) (total st) (error st) (duplicateIds st)
    (unmatchedCsvRows st) (elapsedSeconds st) (eventSourceRef st)
    t (donePayloadRef st) (sources st) (rendered st) (pending st).

Definition set_donePayloadRef (p : option DonePayload) (st : State) : State :=
  mkState (status st) (results st) (total st) (error st) (duplicateIds st)
    (unmatchedCsvRows st) (elapsedSeconds st) (eventSourceRef st)
    (startTimeRef st) p (sources st) (rendered st) (pending st).

Definition set_sources (l : list ReadyState) (st : State) : State :=
  mkState (status st) (results st) (total st) (error st) (duplicateIds st)
    (unmatchedCsvRows st) (elapsedSeconds st) (eventSourceRef st)
    (startTimeRef st) (donePayloadRef st) l (rendered st) (pending st).

Definition set_rendered (d : option Deps) (st : State) : State :=
  mkState (status st) (results st) (total st) (error st) (duplicateIds st)
    (unmatchedCsvRows st) (elapsedSeconds st) (eventSourceRef st)
    (startTimeRef st) (donePayloadRef st) (sources st) d (pending st).

Definition set_pending (d : option Deps) (st : State) : State :=
  mkState (status st) (results st) (total st) (error st) (duplicateIds st)
    (unmatchedCsvRows st) (elapsedSeconds st) (eventSourceRef st)
    (startTimeRef st) (donePayloadRef st) (sources st) (rendered st) d.

(** *** The browser's [EventSource] objects *)

Definition readyState (e : nat) (st : State) : option ReadyState :=
  sources st !! e.

(** [es.close()]. *)
Definition close (e : nat) (st : State) : State :=
  set_sources (<[e := CLOSED]> (sources st)) st.

(** [new EventSource(url)]: a fresh object, connecting. *)
Definition new_EventSource (st : State) : nat * State :=
  (length (sources st), set_sources (sources st ++ [CONNECTING]) st).

(** The browser dispatches an event at an [EventSource] only while its
    [readyState] is not [CLOSED].  (The change from [CONNECTING] to [OPEN]
    is not an event of the model: no handler is registered for it.) *)
Definition dispatches (e : nat) (st : State) : bool :=
  match readyState e st with
  | Some CONNECTING | Some OPEN => true
  | Some CLOSED | None => false
  end.

(** [if (eventSourceRef.current) { eventSourceRef.current.close();
    eventSourceRef.current = null; }] *)
Definition close_current (st : State) : State :=
  match eventSourceRef st with
  | Some e => set_eventSourceRef None (close e st)
  | None => st
  end.

(** *** The completion effect *)

(** The values of the current cells that a render would hand to the
    effect. *)
Definition deps (st : State) : Deps :=
  mkDeps (size (results st)) (total st) (status st).

(** The guard of the [useEffect], on the values of its render:
    [total > 0 && results.size >= total &&
     (status === 'streaming' || status === 'uploading')]. *)
Definition completion_due (d : Deps) : bool :=
  (0 <? dep_total d) && (dep_total d <=? Z.of_nat (dep_size d))
  && bool_decide (dep_status d = Streaming ∨ dep_status d = Uploading).

(** [Math.round((performance.now() - startTimeRef.current) / 1000)] *)
Definition elapsed (now : Z) (start : Z) : Z :=
  Math_round (binary64 (inject_Z (now - start) / inject_Z 1000)).

(** The body under the guard.  The refs are read when the effect runs;
    the three state updates are constants. *)
Definition completion_body (now : Z) (st : State) : State :=
  let st := setStatus (fun _ => Complete) st in
  let st := match startTimeRef st with   (* a reading of [0] is falsy *)
            | Some t0 => if t0 =? 0 then st
                         else setElapsedSeconds (Some (elapsed now t0)) st
            | None => st
            end in
  let st := match donePayloadRef st with
            | Some p => match unmatched_csv_rows p with
                        | Some rows => setUnmatchedCsvRows rows st
                        | None => st
                        end
            | None => st
            end in
  close_current st.

(** The scheduled effect runs, with the values of the render that
    scheduled it.  Callbacks may have run since that render. *)
Definition run_effect (now : Z) (st : State) : State :=
  match pending st with
  | Some d =>
      let st := set_pending None st in
      if completion_due d then completion_body now st else st
  | None => st
  end.

(** A render of the component.  React first runs an effect that is still
    scheduled; the render then shows the cells, and schedules the effect
    again when one of its dependencies differs from the previous
    render. *)
Definition render (now : Z) (st : State) : State :=
  let st := run_effect now st in
  if decide (rendered st = Some (deps st)) then st
  else set_pending (Some (deps st)) (set_rendered (Some (deps st)) st).

(** *** [reset] and [analyze] *)

Definition reset (st : State) : State :=
  let st := close_current st in
  let st := setStatus (fun _ => Idle) st in
  let st := setResults (fun _ => ∅) st in
  let st := setTotal 0 st in
  let st := setError None st in
  let st := setDuplicateIds [] st in
  let st := setUnmatchedCsvRows [] st in
  let st := setElapsedSeconds None st in
  let st := set_startTimeRef None st in
  set_donePayloadRef None st.

(** [analyze] up to [await createJob(...)]. *)
Definition analyze_start (now : Z) (files : list File) (st : State) : State :=
  let st := reset st in
  let st := setTotal (Z.of_nat (length files)) st in
  let st := setStatus (fun _ => Uploading) st in
  set_startTimeRef (Some now) st.

(** [analyze] from the resolution of [createJob] up to
    [await uploadAllChunked(...)]: the subscription is created and its
    handlers are registered. *)
Definition analyze_created (duplicate_label_ids : option (list string))
    (st : State) : State :=
  let st := match duplicate_label_ids with
            | Some (d :: ds) => setDuplicateIds (d :: ds) st
            | _ => st
            end in
  let '(es, st) := new_EventSource st in
  set_eventSourceRef (Some es) st.

(** The [catch] block of [analyze]. *)
Definition analyze_catch (message : string) (st : State) : State :=
  let st := setError (Some message) st in
  let st := setStatus (fun _ => Error) st in
  close_current st.

(** [analyze] after [await uploadAllChunked(...)] settles: nothing follows
    a resolution, the [catch] block follows a rejection. *)
Definition analyze_uploaded (r : option string) (st : State) : State :=
  match r with
  | None => st
  | Some message => analyze_catch message st
  end.

(** *** The stream handlers *)

Definition on_meta (total_files : Z) (st : State) : State :=
  setTotal total_files st.

Definition on_result (data : ResultData) (st : State) : State :=
  let st := setResults (fun prev => <[client_index data := mkRecord data false]> prev) st in
  setStatus (fun s => if decide (s = Uploading) then Streaming else s) st.

(** The [error] listener; [None] is an event without [data]. *)
Definition on_error (data : option ResultData) (st : State) : State :=
  match data with
  | None => st
  | Some data =>
      if 0 <=? client_index data
      then setResults (fun prev => <[client_index data := mkRecord data true]> prev) st
      else st
  end.

(** The [data] of a [done] event: absent, unparsable, or parsed. *)
Inductive DoneData := NoData | BadJson | Json (p : DonePayload).

Definition on_done (es : nat) (data : DoneData) (st : State) : State :=
  let st := match data with
            | Json p => set_donePayloadRef (Some p) st
            | NoData | BadJson => st
            end in
  set_eventSourceRef None (close es st).

(** [es.onerror]. *)
Definition onerror (es : nat) (st : State) : State :=
  match readyState es st with
  | Some CLOSED => set_eventSourceRef None st
  | _ => st
  end.

Inductive StreamEvent :=
| meta (total_files : Z)
| result (data : ResultData)
| error_event (data : ResultData)
| done (data : DoneData).

(** The listeners of subscription [es] for a named event.  A named
    [error] event reaches both the [error] listener and [onerror]. *)
Definition handler (es : nat) (ev : StreamEvent) (st : State) : State :=
  match ev with
  | meta n => on_meta n st
  | result d => on_result d st
  | error_event d => onerror es (on_error (Some d) st)
  | done d => on_done es d st
  end.

(** A connection error: the browser moves the object to [rs]
    ([CONNECTING] when it will retry, [CLOSED] when it gives up) and fires
    an [error] event without data. *)
Definition connection_error (es : nat) (rs : ReadyState) (st : State) : State :=
  let st := set_sources (<[es := rs]> (sources st)) st in
  onerror es (on_error None st).

(** *** Runs *)

(** What can happen next: a call of [analyze] or [reset], the
    continuation of [analyze] after one of its two [await]s, an event at
    a subscription, a render of the component, or the run of the
    scheduled effect.  Which of them happens next is the environment's
    choice; in particular several callbacks may run before the next
    render, and between a render and the run of its effect. *)
Inductive Event :=
| Analyze (files : list File)
| CreateJobResolved (duplicate_label_ids : option (list string))
| CreateJobRejected (message : string)
| UploadAllSettled (r : option string)
| Stream (es : nat) (ev : StreamEvent)
| ConnectionError (es : nat) (rs : ReadyState)
| Reset
| Render
| Effect.

(** One turn of the event loop; [now] is what [performance.now()]
    returns during it. *)
Definition step (now : Z) (e : Event) (st : State) : State :=
  match e with
  | Analyze files => analyze_start now files st
  | CreateJobResolved d => analyze_created d st
  | CreateJobRejected m => analyze_catch m st
  | UploadAllSettled r => analyze_uploaded r st
  | Stream es ev => if dispatches es st then handler es ev st else st
  | ConnectionError es rs =>
      if dispatches es st then connection_error es rs st else st
  | Reset => reset st
  | Render => render now st
  | Effect => run_effect now st
  end.

(** A run: events paired with the clock reading at which they happen. *)
Fixpoint run (evs : list (Z * Event)) (st : State) : State :=
  match evs with
  | [] => st
  | (now, e) :: evs => run evs (step now e st)
  end.

(** *** Vocabulary for statements about runs *)

(** The body of the completion effect runs in the turn of [e]. *)
Definition fires (e : Event) (st : State) : bool :=
  match e with
  | Render | Effect =>
      match pending st with
      | Some d => completion_due d
      | None => false
      end
  | _ => false
  end.





(** Every subscription that can still deliver events is the one held in
    [eventSourceRef]. *)
Definition tracked (st : State) : Prop :=
  forall e, dispatches e st = true -> eventSourceRef st = Some e.

(** [createJob] never resolves while a subscription is referenced: calls
    of [analyze] do not overlap before their subscriptions exist. *)
Definition orderly (st : State) (e : Event) : bool :=
  match e with
  | CreateJobResolved _ => bool_decide (eventSourceRef st = None)
  | _ => true
  end.

Fixpoint orderly_run (evs : list (Z * Event)) (st : State) : bool :=
  match evs with
  | [] => true
  | (now, e) :: evs => orderly st e && orderly_run evs (step now e st)
  end.





(** The stream reports within the announced range: a [result] or [error]
    event carries a client index from [0] to [total - 1], and a [meta]
    event announces a total that is not negative and lies above every
    index already stored. *)
Definition in_range (st : State) (e : Event) : bool :=
  match e with
  | Stream _ (meta n) =>
      (0 <=? n)
      && bool_decide (map_Forall (fun k _ => k < n) (results st))
  | Stream _ (result d) | Stream _ (error_event d) =>
      (0 <=? client_index d) && (client_index d <? total st)
  | _ => true
  end.

Fixpoint in_range_run (evs : list (Z * Event)) (st : State) : bool :=
  match evs with
  | [] => true
  | (now, e) :: evs => in_range st e && in_range_run evs (step now e st)
  end.

(** The state of a job once its subscription exists: [analyze(files)]
    called in the initial state, rendered, and [createJob] resolved. *)
Definition job_start (now0 now1 : Z) (files : list File)
    (duplicate_label_ids : option (list string)) : State :=
  run [(now0, Analyze files); (now0, Render); (now0, Effect);
       (now1, CreateJobResolved duplicate_label_ids)] initial.

End Controller.

(** ** The upload scheduler ([uploadAllChunked]) *)

Module Scheduler.

Definition CHUNK_SIZE : nat := 3.
Definition MAX_CONCURRENT : nat := 4.

(** A chunk: [{ file, clientIndex }] entries. *)
Definition Chunk : Type := list (File * nat).

(** [for (j = i; j < Math.min(i + CHUNK_SIZE, files.length); j++)
      chunk.push({ file: files[j], clientIndex: j })] *)
Definition make_chunk (files : list File) (i : nat) : Chunk :=
  omap (fun j => f ← files !! j; Some (f, j))
       (seq i (Nat.min (i + CHUNK_SIZE) (length files) - i)).

(** [for (i = 0; i < files.length; i += CHUNK_SIZE) chunks.push(chunk)];
    the loop runs at most [files.length] times. *)
Fixpoint chunks_from (fuel i : nat) (files : list File) : list Chunk :=
  match fuel with
  | O => []
  | S fuel =>
      if (i <? length files)%nat
      then make_chunk files i :: chunks_from fuel (i + CHUNK_SIZE) files
      else []
  end.

Definition make_chunks (files : list File) : list Chunk :=
  chunks_from (length files) 0 files.

(** What the scheduler does that the outside can see, in order. *)
Inductive Action :=
| UploadChunk (idx : nat) (chunk : Chunk)   (* uploadChunk(jobId, chunks[idx]) is called *)
| Settled (idx : nat)                       (* await Promise.race(active) yields idx *)
| ConsoleError (idx : nat) (err : string)   (* console.error(`Chunk ${idx} failed:`, err) *)
| CompleteJob.                              (* completeJob(jobId) is called *)

(** The network: for each chunk whether its upload is acknowledged
    ([None]) or fails with a message; the outcome of [completeJob]; and,
    for each [await Promise.race(active)] in turn, which of the in-flight
    promises settles first (a position in [active], taken modulo its
    length). *)
Record Network := mkNetwork {
  upload_result : nat -> option string;
  complete_result : option string;
  winners : list nat
}.

(** The loop variables, and the actions so far. *)
Record Loop := mkLoop {
  active : list nat;        (* the [_idx] of the promises in [active] *)
  chunkIndex : nat;
  trace : list Action
}.

(** [while (active.length < MAX_CONCURRENT && chunkIndex < chunks.length)];
    [None] when the fuel runs out with the guard still true. *)
Fixpoint top_up (fuel : nat) (chunks : list Chunk) (s : Loop) : option Loop :=
  if ((length (active s) <? MAX_CONCURRENT) && (chunkIndex s <? length chunks))%nat
  then match fuel with
       | O => None
       | S fuel =>
           let idx := chunkIndex s in
           top_up fuel chunks
             (mkLoop (active s ++ [idx]) (S idx)
                     (trace s ++ [UploadChunk idx (default [] (chunks !! idx))]))
       end
  else Some s.

(** [settled = await Promise.race(active)], the filter, and the log. *)
Definition race (net : Network) (w : nat) (s : Loop) : Loop :=
  let idx := nth (w mod length (active s)) (active s) O in
  mkLoop (filter (fun p => p ≠ idx) (active s)) (chunkIndex s)
         (trace s ++ [Settled idx] ++
            match upload_result net idx with
            | Some err => [ConsoleError idx err]
            | None => []
            end).

(** [while (chunkIndex < chunks.length || active.length > 0)] *)
Fixpoint main_loop (fuel : nat) (net : Network) (chunks : list Chunk)
    (ws : list nat) (s : Loop) : option Loop :=
  if ((chunkIndex s <? length chunks) || (0 <? length (active s)))%nat
  then match fuel with
       | O => None
       | S fuel =>
           s ← top_up MAX_CONCURRENT chunks s;
           if (0 <? length (active s))%nat
           then main_loop fuel net chunks (tl ws) (race net (hd O ws) s)
           else main_loop fuel net chunks ws s
       end
  else Some s.

(** [uploadAllChunked(jobId, files)]: the actions performed and how the
    returned promise settles ([None]: resolved; [Some m]: rejected with
    [m], which can only come from [await completeJob(jobId)]).  The outer
    [option] is fuel: one iteration per chunk is enough. *)
Definition uploadAllChunked (net : Network) (files : list File)
    : option (list Action * option string) :=
  let chunks := make_chunks files in
  s ← main_loop (length chunks) net chunks (winners net) (mkLoop [] O []);
  Some (trace s ++ [CompleteJob], complete_result net).

(** Requests outstanding after a sequence of actions. *)
Fixpoint outstanding (t : list Action) : Z :=
  match t with
  | [] => 0
  | UploadChunk _ _ :: t => outstanding t + 1
  | Settled _ :: t => outstanding t - 1
  | _ :: t => outstanding t
  end.

(** The chunk indices of the [uploadChunk] calls of a trace, in order. *)
Definition uploads (t : list Action) : list nat :=
  omap (fun a => match a with UploadChunk i _ => Some i | _ => None end) t.

(** The chunk indices whose attempt has been seen to settle, in order. *)
Definition settles (t : list Action) : list nat :=
  omap (fun a => match a with Settled i => Some i | _ => None end) t.

(** The logged failures, in order. *)
Definition logged (t : list Action) : list (nat * string) :=
  omap (fun a => match a with ConsoleError i e => Some (i, e) | _ => None end) t.

(** At every point of the trace the number of requests outstanding lies
    between [0] and [MAX_CONCURRENT]. *)
Definition bounded (t : list Action) : Prop :=
  forall p q, t = p ++ q -> 0 <= outstanding p <= Z.of_nat MAX_CONCURRENT.

(** The loop invariant of [uploadAllChunked]. *)
Definition invariant (net : Network) (chunks : list Chunk) (s : Loop) : Prop :=
  (chunkIndex s <= length chunks)%nat
  /\ uploads (trace s) = seq 0 (chunkIndex s)
  /\ active s ++ settles (trace s) ≡ₚ seq 0 (chunkIndex s)
  /\ (length (active s) <= MAX_CONCURRENT)%nat
  /\ outstanding (trace s) = Z.of_nat (length (active s))
  /\ bounded (trace s)
  /\ (CompleteJob ∉ trace s)
  /\ (forall idx c, UploadChunk idx c ∈ trace s -> chunks !! idx = Some c)
  /\ logged (trace s)
     = omap (fun i => pair i <$> upload_result net i) (settles (trace s)).

(** What is left to do: chunks not yet issued plus requests in flight. *)
Definition remaining (chunks : list Chunk) (s : Loop) : nat :=
  (length chunks - chunkIndex s + length (active s))%nat.

End Scheduler.

(** ** The image preprocessor ([compressImage]) *)

Module Compress.

Definition MAX_DIMENSION : Z := 1600.
(** The double that the literal [0.85] denotes. *)
Definition JPEG_QUALITY : Q := binary64 (85 # 100).

(** How a promise ends; [Pending] is a promise that never settles. *)
Inductive Promise (A : Type) :=
| Resolved (a : A)
| Rejected (reason : string)
| Pending.
Arguments Resolved {A} a.
Arguments Rejected {A} reason.
Arguments Pending {A}.

(** The outcome of loading the object URL into an [Image]: [onerror], or
    [onload] with the image's [width] and [height] (of the DOM type
    [unsigned long]: integers from [0] to [2 ^ 32 - 1]). *)
Inductive Decoded := DecodeError | Loaded (width height : Z).

(** The browser under [compressImage]: the image decoder, whether
    [canvas.getContext('2d')] of a canvas of the given size returns a
    context or [null], and [canvas.toBlob], which calls back with the
    encoded bytes or with [null]. *)
Record Browser := mkBrowser {
  decode : File -> Decoded;
  getContext_2d : Z -> Z -> bool;
  toBlob : File -> Z -> Z -> string -> Q -> option string
}.

Fixpoint no_dot (s : string) : bool :=
  match s with
  | EmptyString => true
  | String c s => negb (Ascii.eqb c ".") && no_dot s
  end.

(** The match of [/\.[^.]+$/] removed: [Some] of what remains when the
    pattern matches, [None] when it does not. *)
Fixpoint remove_extension (s : string) : option string :=
  match s with
  | EmptyString => None
  | String c rest =>
      match remove_extension rest with
      | Some r => Some (String c r)
      | None =>
          if Ascii.eqb c "." && negb (String.eqb rest "") && no_dot rest
          then Some EmptyString
          else None
      end
  end.

(** [file.name.replace(/\.[^.]+$/, '')] *)
Definition stem (file_name : string) : string :=
  default file_name (remove_extension file_name).

(** The canvas size computed in [img.onload]:
    [scale = MAX_DIMENSION / longest], a double, and
    [Math.round(width * scale)], [Math.round(height * scale)], each
    product a double. *)
Definition canvas_size (width height : Z) : Z * Z :=
  let longest := Z.max width height in
  if MAX_DIMENSION <? longest
  then
    let scale := binary64 (inject_Z MAX_DIMENSION / inject_Z longest) in
    (Math_round (binary64 (inject_Z width * scale)),
     Math_round (binary64 (inject_Z height * scale)))
  else (width, height).

(** [compressImage(file)]: how the returned promise ends.  When
    [getContext] returns [null], [ctx.drawImage] throws a [TypeError]
    inside [img.onload]; the exception leaves the event handler, neither
    [resolve] nor [reject] is ever called, and the promise stays
    pending. *)
Definition compressImage (b : Browser) (file : File) : Promise File :=
  if negb (String.prefix "image/" (type file))
  then Resolved file
  else
    match decode b file with
    | DecodeError => Resolved file
    | Loaded w h =>
        let '(width, height) := canvas_size w h in
        if getContext_2d b width height
        then
          match toBlob b file width height "image/jpeg" JPEG_QUALITY with
          | None => Resolved file
          | Some blob =>
              Resolved (mkFile (stem (name file) +:+ ".jpg")
                               (Z.of_nat (String.length blob))
                               "image/jpeg"
                               (lastModified file)
                               blob)
          end
        else Pending
    end.

End Compress.

(** ** File acceptance ([UploadZone]) *)

Module UploadZone.

Definition ALLOWED_IMAGE_TYPES : list string :=
  ["image/jpeg"; "image/png"; "image/webp"].
Definition MAX_FILES : nat := 300.
Definition REQUIRED_CSV_COLUMN : string := "label_id".
Definition RECOGNIZED_CSV_COLUMNS : list string :=
  ["label_id"; "brand_name"; "class_type"; "alcohol_content";
   "net_contents"; "producer_name"; "producer_address"].

(** *** [addFiles] *)

(** [f.name + f.size] *)
Definition file_key (f : File) : string := name f +:+ pretty (size_bytes f).

(** The updater passed to [setFiles]. *)
Definition merge_images (images prev : list File) : list File :=
  let existingNames : gset string := list_to_set (map file_key prev) in
  let deduped := filter (fun f => file_key f ∉ existingNames) images in
  let merged := prev ++ deduped in
  if (MAX_FILES <? length merged)%nat then prev else merged.

(** The image part of [addFiles fileList], on the accepted files. *)
Definition addFiles (fileList : list File) (files : list File) : list File :=
  let images := filter (fun f => type f ∈ ALLOWED_IMAGE_TYPES) fileList in
  if (length images =? 0)%nat then files else merge_images images files.

(** *** [handleCsvFile] *)

(** A row object of [Papa.parse] with [header: true]: the header names
    paired with the cells. *)
Definition Row : Type := list (string * string).

(** [row[col]]; [None] is [undefined]. *)
Fixpoint get (row : Row) (col : string) : option string :=
  match row with
  | [] => None
  | (k, v) :: row => if String.eqb k col then Some v else get row col
  end.

(** [Object.keys(row)] *)
Definition keys (row : Row) : list string := map fst row.

(** White space for [String.prototype.trim], among code units below 256. *)
Definition is_space (c : ascii) : bool :=
  let n := nat_of_ascii c in
  ((9 <=? n) && (n <=? 13) || (n =? 32) || (n =? 160))%nat.

Fixpoint trimStart (s : string) : string :=
  match s with
  | EmptyString => EmptyString
  | String c r => if is_space c then trimStart r else s
  end.

Fixpoint trimEnd (s : string) : string :=
  match s with
  | EmptyString => EmptyString
  | String c r =>
      match trimEnd r with
      | EmptyString => if is_space c then EmptyString else String c EmptyString
      | r' => String c r'
      end
  end.

Definition trim (s : string) : string := trimEnd (trimStart s).

(** The body of [rows.map]: the loop over [RECOGNIZED_CSV_COLUMNS]. *)
Definition clean_row (row : Row) : Row :=
  fold_left
    (fun out col =>
       match get row col with
       | Some v => if negb (String.eqb v "") then out ++ [(col, trim v)] else out
       | None => out
       end)
    RECOGNIZED_CSV_COLUMNS [].

(** A string is truthy when it is not empty; [undefined] is falsy. *)
Definition truthy (v : option string) : bool :=
  match v with
  | Some s => negb (String.eqb s "")
  | None => false
  end.

Record ParseResult := mkParse {
  errors : list string;       (* the [message] of each entry of result.errors *)
  data : list Row
}.

Fixpoint join (sep : string) (l : list string) : string :=
  match l with
  | [] => ""
  | [x] => x
  | x :: l => x +:+ sep +:+ join sep l
  end.

(** The [complete] callback: [inl] is the argument of [setCsvError],
    [inr] the argument of [setCsvRows]. *)
Definition handleCsvFile_complete (r : ParseResult) : string + list Row :=
  match errors r with
  | e :: _ => inl ("CSV parse error: " +:+ e)
  | [] =>
      let rows := data r in
      match rows with
      | [] => inl "CSV file is empty."
      | row0 :: _ =>
          let columns := keys row0 in
          if negb (existsb (String.eqb REQUIRED_CSV_COLUMN) columns)
          then inl ("Missing required column " +:+ String "034" REQUIRED_CSV_COLUMN
                    +:+ String "034" ". Found columns: " +:+ join ", " columns
                    +:+ ". Expected: " +:+ join ", " RECOGNIZED_CSV_COLUMNS)
          else if (MAX_FILES <? length rows)%nat
          then inl ("CSV has " +:+ pretty (length rows) +:+ " rows but maximum is "
                    +:+ pretty MAX_FILES +:+ ". Please reduce the number of rows.")
          else
            let cleaned :=
              List.filter (fun row => truthy (get row "label_id"))
                          (map clean_row rows) in
            inr cleaned
      end
  end.

(** What the loop over the recognized columns keeps of a cell. *)
Definition kept (row : Row) (col : string) : option (string * string) :=
  match get row col with
  | Some v => if negb (String.eqb v "") then Some (col, trim v) else None
  | None => None
  end.

(** A string without white space at either end. *)
Definition starts_clean (s : string) : bool :=
  match s with
  | EmptyString => true
  | String c _ => negb (is_space c)
  end.

Fixpoint ends_clean (s : string) : bool :=
  match s with
  | EmptyString => true
  | String c EmptyString => negb (is_space c)
  | String _ r => ends_clean r
  end.

End UploadZone.

(** * Properties *)

(** ** Arithmetic of [binary64] and [Math.round] *)

Section Binary64Facts.
Local Open Scope Q_scope.

Lemma pow2_pos e : 0 < pow2 e.
Proof. apply Qpower_0_lt. reflexivity. Qed.

Lemma pow2_plus a b : pow2 (a + b) == pow2 a * pow2 b.
Proof. apply Qpower_plus. discriminate. Qed.

Lemma pow2_minus a b : pow2 (a - b) == pow2 a / pow2 b.
Proof. apply Qpower_minus. discriminate. Qed.

Lemma pow2_Z a : (0 <= a)%Z -> pow2 a == inject_Z (2 ^ a).
Proof. intros H. unfold pow2. rewrite Zpower_Qpower by exact H. reflexivity. Qed.

Lemma Q_as_fraction (x : Q) : x == inject_Z (Qnum x) / inject_Z (Zpos (Qden x)).
Proof.
  destruct x as [n d]. unfold Qeq, Qdiv, Qmult, Qinv, inject_Z. simpl. lia.
Qed.

Lemma Qmult_lt_le_mono (a b c d : Q) :
  0 < a -> a < b -> 0 < c -> c <= d -> a * c < b * d.
Proof.
  intros Ha Hab Hc Hcd.
  assert (H1 : a * c < b * c) by (apply Qmult_lt_compat_r; assumption).
  assert (H2 : b * c <= b * d)
    by (rewrite !(Qmult_comm b); apply Qmult_le_compat_r; lra).
  lra.
Qed.

Lemma Qmult_le_lt_mono (a b c d : Q) :
  0 < a -> a <= b -> 0 < c -> c < d -> a * c < b * d.
Proof.
  intros. rewrite (Qmult_comm a), (Qmult_comm b).
  apply Qmult_lt_le_mono; assumption.
Qed.

Lemma Qmult_le_mono (a b c d : Q) :
  0 <= a -> a <= b -> 0 <= c -> c <= d -> a * c <= b * d.
Proof.
  intros Ha Hab Hc Hcd.
  assert (H1 : a * c <= b * c) by (apply Qmult_le_compat_r; assumption).
  assert (H2 : b * c <= b * d)
    by (rewrite !(Qmult_comm b); apply Qmult_le_compat_r; lra).
  lra.
Qed.

Lemma floor_log2_spec (x : Q) :
  0 < x -> pow2 (floor_log2 x) <= x /\ x < pow2 (floor_log2 x + 1).
Proof.
  intros Hx. unfold floor_log2.
  set (n := Qnum x). set (d := Zpos (Qden x)).
  assert (Hn : (0 < n)%Z) by (destruct x as [nn dd]; unfold Qlt in Hx; simpl in *; lia).
  assert (Hd : (0 < d)%Z) by (subst d; lia).
  destruct (Z.log2_spec n Hn) as [Hn1 Hn2].
  destruct (Z.log2_spec d Hd) as [Hd1 Hd2].
  set (a := Z.log2 n) in *. set (b := Z.log2 d) in *.
  assert (Ha : (0 <= a)%Z) by apply Z.log2_nonneg.
  assert (Hb : (0 <= b)%Z) by apply Z.log2_nonneg.
  assert (Ex : x == inject_Z n / inject_Z d) by apply Q_as_fraction.
  assert (Qn1 : pow2 a <= inject_Z n) by (rewrite pow2_Z by lia; rewrite <- Zle_Qle; lia).
  assert (Qn2 : inject_Z n < pow2 (a + 1))
    by (rewrite pow2_Z by lia; rewrite <- Zlt_Qlt; unfold Z.succ in Hn2; lia).
  assert (Qd1 : pow2 b <= inject_Z d) by (rewrite pow2_Z by lia; rewrite <- Zle_Qle; lia).
  assert (Qd2 : inject_Z d < pow2 (b + 1))
    by (rewrite pow2_Z by lia; rewrite <- Zlt_Qlt; unfold Z.succ in Hd2; lia).
  assert (Qd0 : 0 < inject_Z d) by (rewrite <- (Zlt_Qlt 0); lia).
  pose proof (pow2_pos a) as Pa. pose proof (pow2_pos b) as Pb.
  pose proof (pow2_pos (a - b)) as Pk. pose proof (pow2_pos (a - b - 1)) as Pk1.
  assert (Exd : x * inject_Z d == inject_Z n) by (rewrite Ex; field; lra).
  (* 2^(a-b) * 2^b = 2^a *)
  assert (E1 : pow2 (a - b) * pow2 b == pow2 a)
    by (rewrite <- pow2_plus; replace (a - b + b)%Z with a by lia; reflexivity).
  assert (E2 : pow2 (a - b - 1) * pow2 (b + 1) == pow2 a)
    by (rewrite <- pow2_plus; replace (a - b - 1 + (b + 1))%Z with a by lia; reflexivity).
  assert (E3 : pow2 (a - b + 1) * pow2 b == pow2 (a + 1))
    by (rewrite <- pow2_plus; replace (a - b + 1 + b)%Z with (a + 1)%Z by lia; reflexivity).
  destruct (Qle_bool (pow2 (a - b)) x) eqn:C.
  - apply Qle_bool_iff in C. split; [exact C|].
    (* x * d = n < 2^(a+1) = 2^(k+1) * 2^b <= 2^(k+1) * d *)
    pose proof (pow2_pos (a - b + 1)) as Pk2.
    apply Qnot_le_lt. intros Hc.
    assert (x * inject_Z d < pow2 (a - b + 1) * pow2 b)
      by (rewrite Exd, E3; exact Qn2).
    assert (pow2 (a - b + 1) * pow2 b <= x * inject_Z d)
      by (apply Qmult_le_mono; lra).
    lra.
  - assert (Hlt : x < pow2 (a - b)).
    { apply Qnot_le_lt. intros Hc. apply Qle_bool_iff in Hc. congruence. }
    replace (a - b - 1 + 1)%Z with (a - b)%Z by lia. split; [|exact Hlt].
    apply Qnot_lt_le. intros Hc.
    assert (x * inject_Z d < pow2 (a - b - 1) * pow2 (b + 1))
      by (apply Qmult_lt_le_mono; lra).
    lra.
Qed.

Lemma round_half_even_spec (x : Q) :
  inject_Z (round_half_even x) - x <= 1 # 2
  /\ x - inject_Z (round_half_even x) <= 1 # 2.
Proof.
  unfold round_half_even.
  pose proof (Qfloor_le x) as H1. pose proof (Qlt_floor x) as H2.
  rewrite inject_Z_plus in H2. change (inject_Z 1) with 1 in H2.
  destruct (x - inject_Z (Qfloor x) ?= 1 # 2) eqn:C.
  - apply Qeq_alt in C.
    destruct (Z.even (Qfloor x)); rewrite ?inject_Z_plus;
      change (inject_Z 1) with 1; lra.
  - apply Qlt_alt in C. lra.
  - apply Qgt_alt in C. rewrite inject_Z_plus. change (inject_Z 1) with 1. lra.
Qed.

Lemma binary64_pos_error (x : Q) :
  0 < x ->
  binary64_pos x - x <= x * (1 # 9007199254740992)
  /\ x - binary64_pos x <= x * (1 # 9007199254740992).
Proof.
  intros Hx. unfold binary64_pos.
  destruct (floor_log2_spec x Hx) as [Hl _].
  set (l := floor_log2 x) in *.
  pose proof (pow2_pos (l - 52)) as Pe.
  set (P := pow2 (l - 52)) in *.
  assert (El : pow2 l == P * inject_Z (2 ^ 52)).
  { unfold P. rewrite <- pow2_Z by lia. rewrite <- pow2_plus.
    replace (l - 52 + 52)%Z with l by lia. reflexivity. }
  destruct (round_half_even_spec (x / P)) as [R1 R2].
  set (m := inject_Z (round_half_even (x / P))) in *.
  assert (Eu : x / P * P == x) by (field; lra).
  set (u := x / P) in *.
  change (inject_Z (2 ^ 52)) with (4503599627370496 # 1) in El.
  assert (Hu : u * P == x) by exact Eu.
  split; nra.
Qed.

Lemma binary64_positive (x : Q) : 0 < x -> binary64 x = binary64_pos x.
Proof.
  intros Hx. unfold binary64. destruct x as [[|n|n] d]; try reflexivity;
    unfold Qlt in Hx; simpl in Hx; lia.
Qed.

Lemma binary64_error (x : Q) :
  0 < x ->
  binary64 x - x <= x * (1 # 9007199254740992)
  /\ x - binary64 x <= x * (1 # 9007199254740992).
Proof. intros Hx. rewrite binary64_positive by exact Hx. apply binary64_pos_error, Hx. Qed.

Lemma binary64_zero_l (y : Q) : binary64 (inject_Z 0 * y) = 0.
Proof. unfold binary64. destruct y as [n d]. reflexivity. Qed.


End Binary64Facts.

(** The rounded product of a length [x] with the double [1600 / L] is
    within one half of the exact [1600 * x / L].  (The two roundings to
    binary64 move the product by less than [2 ^ -40], and the exact value
    is a multiple of [1 / L].) *)
Lemma round_scaled_float (x L : Z) :
  1600 < L < 2 ^ 32 -> 0 <= x <= L ->
  let k := Math_round (binary64 (inject_Z x * binary64 (inject_Z 1600 / inject_Z L))) in
  - L <= 2 * (k * L - 1600 * x) <= L.
Proof.
  intros HL Hx k.
  destruct (Z.eq_dec x 0) as [->|Hx0].
  { subst k. rewrite binary64_zero_l.
    change (Math_round 0) with 0. lia. }
  assert (QL : (1600 < inject_Z L)%Q)
    by (change 1600%Q with (inject_Z 1600); rewrite <- Zlt_Qlt; lia).
  assert (QL2 : (inject_Z L < 4294967296)%Q)
    by (change 4294967296%Q with (inject_Z (2 ^ 32)); rewrite <- Zlt_Qlt; lia).
  assert (Qx : (1 <= inject_Z x)%Q)
    by (change 1%Q with (inject_Z 1); rewrite <- Zle_Qle; lia).
  assert (QxL : (inject_Z x <= inject_Z L)%Q) by (rewrite <- Zle_Qle; lia).
  set (r := (inject_Z 1600 / inject_Z L)%Q) in *.
  assert (Er : (r * inject_Z L == 1600)%Q) by (unfold r; change (inject_Z 1600) with 1600%Q; field; lra).
  assert (Hr : (0 < r)%Q) by nra.
  destruct (binary64_error r Hr) as [S1 S2].
  set (s := binary64 r) in *.
  assert (Hs : (0 < s)%Q) by nra.
  assert (Hz : (0 < inject_Z x * s)%Q) by nra.
  destruct (binary64_error _ Hz) as [P1 P2].
  set (p := binary64 (inject_Z x * s)) in *.
  pose proof (Qfloor_le (p + (1 # 2))) as K1.
  pose proof (Qlt_floor (p + (1 # 2))) as K2.
  fold (Math_round p) in K1, K2. fold k in K1, K2.
  rewrite inject_Z_plus in K2. change (inject_Z 1) with 1%Q in K2.
  set (X := inject_Z x) in *. set (LL := inject_Z L) in *. set (K := inject_Z k) in *.
  assert (B1 : (inject_Z (2 * (k * L + - (1600 * x))) < inject_Z (L + 1))%Q).
  { rewrite !inject_Z_plus, !inject_Z_mult, inject_Z_plus, inject_Z_opp,
      !inject_Z_mult.
    change (inject_Z 2) with 2%Q. change (inject_Z 1600) with 1600%Q.
    change (inject_Z 1) with 1%Q. fold X LL K. nra. }
  assert (B2 : (inject_Z (- (L + 1)) < inject_Z (2 * (k * L + - (1600 * x))))%Q).
  { rewrite inject_Z_opp, !inject_Z_plus, !inject_Z_mult, inject_Z_plus,
      inject_Z_opp, !inject_Z_mult.
    change (inject_Z 2) with 2%Q. change (inject_Z 1600) with 1600%Q.
    change (inject_Z 1) with 1%Q. fold X LL K. nra. }
  rewrite <- Zlt_Qlt in B1, B2. lia.
Qed.
(** ** The controller *)

Section ControllerFacts.
Import Controller.

(** *** Bookkeeping: what each turn does to the cells *)

Lemma onerror_dispatching es st :
  dispatches es st = true -> onerror es st = st.
Proof.
  unfold dispatches, onerror. by destruct (readyState es st) as [[]|].
Qed.

Lemma size_insert_same (m : gmap Z ResultRecord) k v1 v2 :
  size (<[k := v1]> m) = size (<[k := v2]> m).
Proof.
  destruct (m !! k) eqn:E.
  - by rewrite !map_size_insert_Some.
  - by rewrite !map_size_insert_None.
Qed.

Lemma status_close_current st : status (close_current st) = status st.
Proof. unfold close_current. by destruct (eventSourceRef st). Qed.

Lemma status_onerror es st : status (onerror es st) = status st.
Proof. unfold onerror. by destruct (readyState es st) as [[]|]. Qed.

Lemma status_on_error d st : status (on_error d st) = status st.
Proof. unfold on_error. destruct d; [|done]. by destruct (0 <=? _). Qed.

Lemma completion_body_fields now st :
  let st' := completion_body now st in
  status st' = Complete
  /\ elapsedSeconds st' =
       match startTimeRef st with
       | Some t0 => if t0 =? 0 then elapsedSeconds st else Some (elapsed now t0)
       | None => elapsedSeconds st
       end
  /\ unmatchedCsvRows st' =
       match donePayloadRef st with
       | Some (mkDone (Some rows)) => rows
       | _ => unmatchedCsvRows st
       end
  /\ eventSourceRef st' = None
  /\ (forall es, eventSourceRef st = Some es -> dispatches es st' = false)
  /\ results st' = results st /\ total st' = total st
  /\ rendered st' = rendered st /\ pending st' = pending st
  /\ sources st' = sources (close_current st).
Proof.
  unfold completion_body, close_current.
  destruct st as [s r t e d u el ref start dp src rd pd]; cbn.
  destruct start as [t0|]; [destruct (t0 =? 0)|]; cbn;
    destruct dp as [[[rows|]]|]; cbn; destruct ref as [es0|]; cbn;
    split_and!; try done;
    intros es [= <-]; unfold dispatches, readyState; cbn;
    (destruct (decide (es0 < length src)%nat);
     [by rewrite list_lookup_insert_eq
     |rewrite list_insert_ge by lia;
      by rewrite (lookup_ge_None_2 src es0) by lia]).
Qed.

(** What a turn does to [status]. *)
Lemma status_step now e st :
  status (step now e st) =
  match e with
  | Analyze _ => Uploading
  | CreateJobRejected _ | UploadAllSettled (Some _) => Error
  | Reset => Idle
  | Stream es (result _) =>
      if dispatches es st
      then (if decide (status st = Uploading) then Streaming else status st)
      else status st
  | Render | Effect => if fires e st then Complete else status st
  | _ => status st
  end.
Proof.
  assert (Heff : status (run_effect now st)
                 = if fires Effect st then Complete else status st).
  { unfold run_effect, fires. destruct (pending st) as [d|]; [|done].
    destruct (completion_due d); [|done].
    apply (completion_body_fields now (set_pending None st)). }
  destruct e as [files|dups|m|[m|]|es [n|d|d|d]|es rs| | |];
    cbn [step handler analyze_uploaded].
  - reflexivity.
  - destruct dups as [[|]|]; reflexivity.
  - apply status_close_current.
  - apply status_close_current.
  - reflexivity.
  - by destruct (dispatches es st).
  - by destruct (dispatches es st).
  - destruct (dispatches es st); [|done].
    by rewrite status_onerror, status_on_error.
  - destruct (dispatches es st); [|done]. unfold on_done.
    destruct d; reflexivity.
  - destruct (dispatches es st); [|done].
    unfold connection_error. by rewrite status_onerror, status_on_error.
  - reflexivity.
  - unfold render. change (fires Render st) with (fires Effect st).
    rewrite <- Heff. by case_decide.
  - exact Heff.
Qed.

(** What a turn does to the store and the total: only [analyze], [reset]
    and the events of a live subscription change them. *)
Lemma data_step now e st :
  match e with
  | Analyze _ | Reset => True
  | Stream es _ => dispatches es st = false
  | _ => True
  end ->
  match e with
  | Analyze files =>
      results (step now e st) = ∅
      /\ total (step now e st) = Z.of_nat (length files)
  | Reset => results (step now e st) = ∅ /\ total (step now e st) = 0
  | _ => results (step now e st) = results st
         /\ total (step now e st) = total st
  end.
Proof.
  destruct e as [files|dups|m|[m|]|es ev|es rs| | |];
    cbn [step analyze_uploaded]; intros He; try done.
  - by destruct dups as [[|]|].
  - unfold analyze_catch, close_current. by destruct (eventSourceRef _).
  - unfold analyze_catch, close_current. by destruct (eventSourceRef _).
  - by rewrite He.
  - destruct (dispatches es st); [|done].
    unfold connection_error, onerror, on_error.
    by destruct (readyState es _) as [[]|].
  - unfold render, run_effect. destruct (pending st) as [d|].
    + destruct (completion_due d).
      * destruct (completion_body_fields now (set_pending None st))
          as (_ & _ & _ & _ & _ & Hr & Ht & _).
        case_decide; cbn; by rewrite ?Hr, ?Ht.
      * by case_decide.
    + by case_decide.
  - unfold run_effect. destruct (pending st) as [d|]; [|done].
    destruct (completion_due d); [|done].
    by destruct (completion_body_fields now (set_pending None st))
      as (_ & _ & _ & _ & _ & Hr & Ht & _).
Qed.

Lemma step_error_event now es st d :
  dispatches es st = true -> 0 <= client_index d ->
  step now (Stream es (error_event d)) st
  = setResults (fun prev => <[client_index d := mkRecord d true]> prev) st.
Proof.
  intros Hd Hidx. cbn [step handler]. rewrite Hd.
  assert (Herr : on_error (Some d) st
          = setResults (fun prev => <[client_index d := mkRecord d true]> prev) st).
  { unfold on_error. destruct (0 <=? client_index d) eqn:E; [done | lia]. }
  rewrite Herr. by apply onerror_dispatching.
Qed.

Lemma step_result_event now es st d :
  dispatches es st = true ->
  step now (Stream es (result d)) st = on_result d st.
Proof. intros Hd. cbn [step handler]. by rewrite Hd. Qed.

(** *** Completion *)



(** The guard, spelled out. *)
Lemma completion_due_spec (d : Deps) :
  completion_due d = true
  <-> 0 < dep_total d /\ dep_total d <= Z.of_nat (dep_size d)
      /\ (dep_status d = Uploading \/ dep_status d = Streaming).
Proof.
  unfold completion_due. rewrite !andb_true_iff, bool_decide_eq_true.
  rewrite Z.ltb_lt, Z.leb_le. tauto.
Qed.




(** What a turn does to the bookkeeping of the effect. *)
Lemma pending_step now e st :
  match e with
  | Render =>
      rendered (step now e st) = Some (deps (step now e st))
      /\ (pending (step now e st) = None
          \/ pending (step now e st) = Some (deps (step now e st)))
      /\ (rendered (step now e st) = rendered st
          -> pending (step now e st) = None)
      /\ (rendered (step now e st) <> rendered st
          -> pending (step now e st) = Some (deps (step now e st)))
  | Effect =>
      rendered (step now e st) = rendered st /\ pending (step now e st) = None
  | _ =>
      rendered (step now e st) = rendered st
      /\ pending (step now e st) = pending st
  end.
Proof.
  assert (Heff : rendered (run_effect now st) = rendered st
                 /\ pending (run_effect now st) = None).
  { unfold run_effect. destruct (pending st) as [d|] eqn:E; [|done].
    destruct (completion_due d); [|done].
    destruct (completion_body_fields now (set_pending None st))
      as (_ & _ & _ & _ & _ & _ & _ & Hr & Hp & _).
    by rewrite Hr, Hp. }
  destruct e as [files|dups|m|[m|]|es [n|d|d|d]|es rs| | |];
    cbn [step handler analyze_uploaded]; try done.
  - unfold analyze_start, reset, close_current.
    by destruct (eventSourceRef st).
  - by destruct dups as [[|]|].
  - unfold analyze_catch, close_current. by destruct (eventSourceRef _).
  - unfold analyze_catch, close_current. by destruct (eventSourceRef _).
  - by destruct (dispatches es st).
  - by destruct (dispatches es st).
  - destruct (dispatches es st); [|done]. unfold onerror, on_error.
    destruct (0 <=? _); by destruct (readyState es _) as [[]|].
  - destruct (dispatches es st); [|done]. by destruct d.
  - destruct (dispatches es st); [|done].
    unfold connection_error, onerror, on_error.
    by destruct (readyState es _) as [[]|].
  - unfold reset, close_current. by destruct (eventSourceRef st).
  - unfold render. destruct Heff as [Hr Hp].
    case_decide as Hd; cbn [rendered pending set_pending set_rendered].
    + split_and!; auto. intros Hne. by rewrite Hr in Hne.
    + change (deps (set_pending _ (set_rendered _ (run_effect now st))))
        with (deps (run_effect now st)).
      split_and!; auto. intros Heq. rewrite Hr in Hd. congruence.
Qed.













(** *** The effect is not missed *)

Lemma deps_unfired now e st :
  (e = Render \/ e = Effect) -> fires e st = false ->
  deps (step now e st) = deps st.
Proof.
  intros He Hf. unfold deps.
  assert (Hd : results (step now e st) = results st
               /\ total (step now e st) = total st)
    by (destruct He as [-> | ->];
        [exact (data_step now Render st I) | exact (data_step now Effect st I)]).
  destruct Hd as [-> ->]. rewrite status_step.
  destruct He as [-> | ->]; by rewrite Hf.
Qed.











Lemma dispatches_ext e st st' :
  sources st' = sources st -> dispatches e st' = dispatches e st.
Proof. unfold dispatches, readyState. by intros ->. Qed.





(** Results for the client indices 2, 0, 1 of three files, each rendered
    before the next arrives: the progress is 1, 2, 3 and the run is
    complete after the third. *)
Example progress_out_of_order :
  let f := mkFile "a.png" 10 "image/png" 0 "" in
  let shown n i st :=
    run [(n, Stream 0 (result (mkData i "ok"))); (n, Render); (n, Effect)] st in
  let s0 := job_start 0 1 [f; f; f] None in
  let s1 := shown 2 2 s0 in
  let s2 := shown 3 0 s1 in
  let s3 := shown 4 1 s2 in
  (progress s1, progress s2, progress s3) = (1, 2, 3)%nat
  /\ (status s0, status s1, status s2, status s3)
     = (Uploading, Streaming, Streaming, Complete).
Proof. vm_compute. done. Qed.

(** *** Superseded subscriptions *)

Lemma dispatches_close e e' st :
  dispatches e (close e' st) = if decide (e = e') then false else dispatches e st.
Proof.
  unfold dispatches, readyState, close; cbn.
  destruct (decide (e = e')) as [->|Hne].
  - destruct (decide (e' < length (sources st))%nat).
    + by rewrite list_lookup_insert_eq.
    + rewrite list_insert_ge by lia.
      by rewrite (lookup_ge_None_2 (sources st) e') by lia.
  - by rewrite list_lookup_insert_ne.
Qed.

Lemma closed_never_dispatches (src : list ReadyState) (e : nat) :
  match <[e := CLOSED]> src !! e with
  | Some CONNECTING | Some OPEN => true
  | Some CLOSED | None => false
  end = false.
Proof.
  destruct (decide (e < length src)%nat).
  - by rewrite list_lookup_insert_eq.
  - rewrite list_insert_ge by lia. by rewrite (lookup_ge_None_2 src e) by lia.
Qed.

Lemma close_current_silent st :
  tracked st -> forall e, dispatches e (close_current st) = false.
Proof.
  intros Ht e. unfold close_current.
  destruct (eventSourceRef st) as [e0|] eqn:Href.
  - rewrite (dispatches_ext e (close e0 st)) by done.
    rewrite dispatches_close. destruct (decide (e = e0)) as [->|Hne]; [done|].
    apply not_true_iff_false. intros Hd%Ht. congruence.
  - apply not_true_iff_false. intros Hd%Ht. congruence.
Qed.

Lemma silent_tracked st : (forall e, dispatches e st = false) -> tracked st.
Proof. intros H e He. rewrite H in He. done. Qed.

Lemma step_silent now e st :
  match e with
  | Stream es _ | ConnectionError es _ => dispatches es st = false
  | _ => False
  end ->
  step now e st = st.
Proof.
  intros He.
  destruct e as [| | | |es ev|es rs| | |]; try done; cbn [step]; by rewrite He.
Qed.

Lemma dispatches_set es rs e st :
  dispatches es st = true ->
  dispatches e (set_sources (<[es := rs]> (sources st)) st)
  = if decide (e = es) then bool_decide (rs <> CLOSED) else dispatches e st.
Proof.
  unfold dispatches, readyState; cbn. intros Hes.
  destruct (decide (e = es)) as [->|Hne].
  - assert (es < length (sources st))%nat.
    { destruct (sources st !! es) eqn:E; [|done]. by eapply lookup_lt_Some. }
    rewrite list_lookup_insert_eq by done. by destruct rs.
  - by rewrite list_lookup_insert_ne.
Qed.

Lemma tracked_ext st st' :
  sources st' = sources st -> eventSourceRef st' = eventSourceRef st ->
  tracked st -> tracked st'.
Proof.
  intros Hs Hr Ht e He. rewrite Hr. apply Ht.
  by rewrite <- (dispatches_ext e st st').
Qed.

Lemma tracked_run_effect now st : tracked st -> tracked (run_effect now st).
Proof.
  intros Ht. unfold run_effect. destruct (pending st) as [d|]; [|done].
  assert (Ht' : tracked (set_pending None st)) by (by apply (tracked_ext st)).
  destruct (completion_due d); [|done].
  apply silent_tracked. intros e.
  destruct (completion_body_fields now (set_pending None st))
    as (_ & _ & _ & _ & _ & _ & _ & _ & _ & Hsrc).
  rewrite (dispatches_ext e (close_current (set_pending None st))) by done.
  by apply close_current_silent.
Qed.

Lemma sources_analyze_catch m st :
  sources (analyze_catch m st) = sources (close_current st).
Proof.
  unfold analyze_catch, close_current. cbn. by destruct (eventSourceRef st).
Qed.

Lemma tracked_step now e st :
  tracked st -> orderly st e = true -> tracked (step now e st).
Proof.
  intros Ht Ho.
  assert (Hclosing : forall st', sources st' = sources (close_current st) ->
                                 tracked st').
  { intros st' Hsrc. apply silent_tracked. intros e'.
    rewrite (dispatches_ext e' (close_current st)) by done.
    by apply close_current_silent. }
  destruct e as [files|dups|m|[m|]|es ev|es rs| | |];
    cbn [step analyze_uploaded];
    try (by apply Hclosing); try (apply Hclosing, sources_analyze_catch);
    try done.
  - (* the subscription is created *)
    cbn [orderly] in Ho. apply bool_decide_eq_true in Ho.
    assert (Hsil : forall e', dispatches e' st = false).
    { intros e'. apply not_true_iff_false. intros He'%Ht. congruence. }
    assert (Hnew : forall st1, sources st1 = sources st ->
              tracked (set_eventSourceRef (Some (length (sources st1)))
                         (set_sources (sources st1 ++ [CONNECTING]) st1))).
    { intros st1 Hsrc e' He'. cbn. f_equal.
      unfold dispatches, readyState in He'; cbn in He'.
      destruct (decide (e' < length (sources st1))%nat) as [Hlt|Hge].
      - rewrite lookup_app_l in He' by done.
        specialize (Hsil e'). unfold dispatches, readyState in Hsil.
        rewrite Hsrc in He'. by rewrite Hsil in He'.
      - destruct (decide (e' = length (sources st1))) as [->|Hne]; [done|].
        rewrite lookup_ge_None_2 in He'; [done|].
        rewrite length_app; cbn; lia. }
    unfold analyze_created, new_EventSource.
    destruct dups as [[|d ds]|]; by apply Hnew.
  - (* a stream event *)
    destruct (dispatches es st) eqn:Hes; [|done].
    destruct ev as [n|d|d|d]; cbn [handler].
    + by apply (tracked_ext st).
    + by apply (tracked_ext st).
    + rewrite onerror_dispatching.
      2:{ by rewrite (dispatches_ext es st) by (unfold on_error; by destruct (0 <=? _)). }
      unfold on_error. destruct (0 <=? client_index d); [|done].
      by apply (tracked_ext st).
    + unfold on_done.
      set (st1 := match d with Json p => _ | _ => st end).
      assert (Hsrc : sources st1 = sources st) by (subst st1; by destruct d).
      apply silent_tracked. intros e.
      rewrite (dispatches_ext e (close es st1)) by done.
      rewrite dispatches_close. destruct (decide (e = es)) as [->|Hne]; [done|].
      rewrite (dispatches_ext e st) by done.
      apply not_true_iff_false. intros He'%Ht. apply Ht in Hes. congruence.
  - (* a connection error *)
    destruct (dispatches es st) eqn:Hes; [|done].
    unfold connection_error. cbn [on_error].
    set (st1 := set_sources _ st).
    assert (Hsub : forall e, dispatches e st1 = true -> dispatches e st = true).
    { intros e. subst st1. rewrite dispatches_set by done.
      destruct (decide (e = es)) as [->|]; done. }
    assert (Ht1 : tracked st1) by (intros e He; by apply Ht, Hsub).
    unfold onerror. destruct (readyState es st1) as [[]|] eqn:Hrs; try done.
    apply silent_tracked. intros e.
    rewrite (dispatches_ext e st1) by done.
    apply not_true_iff_false. intros He'.
    assert (e = es) as ->.
    { apply Hsub, Ht in He'. apply Ht in Hes. congruence. }
    unfold dispatches in He'. by rewrite Hrs in He'.
  - (* a render *)
    unfold render. pose proof (tracked_run_effect now st Ht) as Ht'.
    case_decide; [done|]. by apply (tracked_ext (run_effect now st)).
  - (* the effect *)
    by apply tracked_run_effect.
Qed.

(** From the initial state every orderly run keeps all live
    subscriptions referenced. *)
Lemma tracked_run evs : forall st,
  tracked st -> orderly_run evs st = true -> tracked (run evs st).
Proof.
  induction evs as [|[now e] evs IH]; intros st Ht Ho; [done|].
  cbn [orderly_run] in Ho. apply andb_true_iff in Ho as [Ho Hevs].
  cbn [run]. apply IH; [|done]. by apply tracked_step.
Qed.

Lemma tracked_initial : tracked initial.
Proof. by intros [|e]. Qed.

(** C2, as the code has it.  The hook has no generation guard; what
    [reset] (and the [reset] inside a new [analyze]) does is close the
    subscription held in [eventSourceRef].  In every state reached from
    the initial one by an orderly run, one in which [createJob] never
    resolves while a subscription is still referenced, that is the only
    live subscription; after [reset] or a new [analyze] no stream event
    or connection error of any earlier subscription is dispatched, so its
    handlers leave the new state untouched. *)
Theorem superseded_subscription_is_silent evs now now' files es ev rs :
  orderly_run evs initial = true ->
  let st := run evs initial in
  let after_reset := step now Reset st in
  let after_analyze := step now (Analyze files) st in
  step now' (Stream es ev) after_reset = after_reset
  /\ step now' (ConnectionError es rs) after_reset = after_reset
  /\ step now' (Stream es ev) after_analyze = after_analyze
  /\ step now' (ConnectionError es rs) after_analyze = after_analyze.
Proof.
  intros Ho st after_reset after_analyze.
  assert (Ht : tracked st) by (by apply tracked_run; [apply tracked_initial|]).
  assert (Hr : forall e, dispatches e after_reset = false).
  { intros e. subst after_reset. cbn [step].
    rewrite (dispatches_ext e (close_current st)) by done.
    by apply close_current_silent. }
  assert (Ha : forall e, dispatches e after_analyze = false).
  { intros e. subst after_analyze. cbn [step].
    rewrite (dispatches_ext e (close_current st)) by done.
    by apply close_current_silent. }
  split_and!; apply step_silent; done.
Qed.

Lemma superseded_subscription_is_silent_witness :
  let f := mkFile "a.png" 10 "image/png" 0 "" in
  let evs := [(0, Analyze [f; f; f]); (1, CreateJobResolved None);
              (2, Stream 0 (result (mkData 0 "ok")))] in
  let late := Stream 0 (result (mkData 1 "late")) in
  orderly_run evs initial = true
  /\ dispatches 0 (run evs initial) = true
  /\ step 4 late (step 3 Reset (run evs initial)) = step 3 Reset (run evs initial)
  /\ progress (step 4 late (run evs initial)) = 2%nat.
Proof.
  intros f evs late.
  assert (Ho : orderly_run evs initial = true) by (vm_compute; reflexivity).
  split; [exact Ho|]. split; [vm_compute; reflexivity|].
  split; [|vm_compute; reflexivity].
  exact (proj1 (superseded_subscription_is_silent evs 3 4 [] 0%nat
                  (result (mkData 1 "late")) CLOSED Ho)).
Defined.

(** C2 as stated fails.  (1) The continuation of [analyze] after
    [await uploadAllChunked] is not tied to any subscription: when
    [completeJob] of a job is rejected after [reset], its [catch] block
    overwrites the idle state.  (2) When, after a [reset], [analyze] is
    called again while [createJob] of the first call is still pending,
    both continuations create a subscription; the first one (object 0) is no longer
    referenced, [reset] does not close it, and its [result] handler writes
    into the store after the reset.  (3) A rejected [completeJob] of the
    first job closes the subscription of the second.  (4) When [reset]
    comes while [createJob] is pending, the continuation still opens a
    subscription afterwards, and its results fill the store of the idle
    controller. *)
Lemma superseded_callback_counterexample :
  let f := mkFile "a.png" 10 "image/png" 0 "" in
  let one := run [(0, Analyze [f]); (1, CreateJobResolved None); (2, Reset)]
                 initial in
  let two := run [(0, Analyze [f]); (1, Reset); (1, Analyze [f; f]);
                  (2, CreateJobResolved None); (3, CreateJobResolved None)]
                 initial in
  let zombie := run [(0, Analyze [f]); (1, Reset); (2, CreateJobResolved None);
                     (3, Stream 0 (result (mkData 0 "stale")))] initial in
  (status one = Idle /\ error one = None
   /\ status (step 3 (UploadAllSettled (Some "Complete failed: 500")) one) = Error
   /\ error (step 3 (UploadAllSettled (Some "Complete failed: 500")) one)
      = Some "Complete failed: 500"%string)
  /\ (progress (step 4 Reset two) = O
      /\ progress (step 5 (Stream 0 (result (mkData 0 "stale"))) (step 4 Reset two))
         = 1%nat)
  /\ (dispatches 1 two = true
      /\ dispatches 1 (step 4 (UploadAllSettled (Some "Complete failed: 500")) two)
         = false)
  /\ (status zombie = Idle /\ progress zombie = 1%nat).
Proof. vm_compute. repeat split; congruence. Qed.

(** *** The store and the total *)

(** A store whose keys all lie in [0 .. n - 1] holds at most [n]
    records. *)
Lemma size_within (m : gmap Z ResultRecord) (n : Z) :
  0 <= n -> map_Forall (fun k _ => 0 <= k < n) m -> Z.of_nat (size m) <= n.
Proof.
  intros Hn Hm.
  assert (Hsub : dom m ⊆ (list_to_set (seqZ 0 n) : gset Z)).
  { intros k [v Hk]%elem_of_dom. apply elem_of_list_to_set, elem_of_seqZ.
    specialize (Hm k v Hk). cbn in Hm. lia. }
  apply subseteq_size in Hsub.
  rewrite size_dom, size_list_to_set, length_seqZ in Hsub by apply NoDup_seqZ.
  lia.
Qed.

(** What the stream keeps when it reports within range: the total is not
    negative and every stored index lies below it. *)
Lemma within_step now e st :
  in_range st e = true ->
  0 <= total st /\ map_Forall (fun k _ => 0 <= k < total st) (results st) ->
  0 <= total (step now e st)
  /\ map_Forall (fun k _ => 0 <= k < total (step now e st))
                (results (step now e st)).
Proof.
  intros Hin [Ht Hm].
  assert (Hsame : forall st', results st' = results st -> total st' = total st ->
            0 <= total st'
            /\ map_Forall (fun k _ => 0 <= k < total st') (results st'))
    by (by intros st' -> ->).
  destruct e as [files|dups|m|[m|]|es [n|d|d|d]|es rs| | |];
    try (by apply Hsame; apply (data_step now _ st)).
  - destruct (data_step now (Analyze files) st I) as [-> ->].
    split; [lia | apply map_Forall_empty].
  - apply Hsame; by apply (data_step now (CreateJobResolved dups) st).
  - apply Hsame; by apply (data_step now (CreateJobRejected m) st).
  - apply Hsame; by apply (data_step now (UploadAllSettled (Some m)) st).
  - apply Hsame; by apply (data_step now (UploadAllSettled None) st).
  - (* meta *)
    cbn [in_range] in Hin. apply andb_true_iff in Hin as [Hn Hk].
    apply Z.leb_le in Hn. apply bool_decide_eq_true in Hk.
    cbn [step handler]. destruct (dispatches es st); [|done].
    cbn. split; [done|]. intros k v Hkv.
    specialize (Hm k v Hkv). specialize (Hk k v Hkv). cbn in *. lia.
  - (* result *)
    cbn [in_range] in Hin. apply andb_true_iff in Hin as [H0 H1].
    apply Z.leb_le in H0. apply Z.ltb_lt in H1.
    cbn [step handler]. destruct (dispatches es st); [|done].
    cbn. split; [done|]. by apply map_Forall_insert_2.
  - (* error *)
    cbn [in_range] in Hin. apply andb_true_iff in Hin as [H0 H1].
    apply Z.leb_le in H0. apply Z.ltb_lt in H1.
    destruct (dispatches es st) eqn:Hd; [|by cbn [step]; rewrite Hd].
    rewrite step_error_event by done.
    cbn. split; [done|]. by apply map_Forall_insert_2.
  - (* done *)
    cbn [step handler]. destruct (dispatches es st); [|done].
    unfold on_done. by destruct d.
  - apply Hsame; by apply (data_step now (ConnectionError es rs) st).
  - destruct (data_step now Reset st I) as [-> ->].
    split; [lia | apply map_Forall_empty].
  - apply Hsame; by apply (data_step now Render st).
  - apply Hsame; by apply (data_step now Effect st).
Qed.

(** C4, as the code has it.  The progress value is the size of the
    store, computed from it and kept nowhere else.  Nothing in the hook
    compares the store with the total; what keeps the size at or below
    [total] is the stream itself: as long as every [result] and [error]
    event carries a client index from [0] to [total - 1], and every
    [meta] event announces a total that is not negative and lies above
    the indices already stored, every state of every run from the initial
    state, whatever the order of events, renders and effects, has all its
    stored indices in that range and so at most [total] records. *)
Theorem progress_within_total evs :
  in_range_run evs initial = true ->
  let st := run evs initial in
  progress st = size (results st)
  /\ Z.of_nat (progress st) <= total st
  /\ map_Forall (fun k _ => 0 <= k < total st) (results st).
Proof.
  intros Hevs st.
  assert (H : forall evs s,
            in_range_run evs s = true ->
            0 <= total s /\ map_Forall (fun k _ => 0 <= k < total s) (results s) ->
            0 <= total (run evs s)
            /\ map_Forall (fun k _ => 0 <= k < total (run evs s))
                          (results (run evs s))).
  { clear. induction evs as [|[now e] evs IH]; intros s Hin Hs; [done|].
    cbn [in_range_run] in Hin. apply andb_true_iff in Hin as [He Hin].
    cbn [run]. apply IH; [done|]. by apply within_step. }
  destruct (H evs initial Hevs) as [Ht Hm].
  { split; [done | apply map_Forall_empty]. }
  fold st in Ht, Hm. split; [done|]. split; [|done].
  by apply size_within.
Qed.

Lemma progress_within_total_witness :
  let files := [mkFile "a.png" 10 "image/png" 0 "";
                mkFile "b.png" 11 "image/png" 0 ""] in
  let evs := [(0, Analyze files); (0, Render); (0, Effect);
              (1, CreateJobResolved None);
              (2, Stream 0 (result (mkData 1 "ok")));
              (3, Stream 0 (meta 3));
              (4, Stream 0 (error_event (mkData 0 "bad")));
              (5, Stream 0 (result (mkData 1 "again")));
              (5, Stream 0 (result (mkData 2 "ok")));
              (6, Render); (7, Effect)] in
  in_range_run evs initial = true
  /\ Z.of_nat (progress (run evs initial)) <= total (run evs initial)
  /\ progress (run evs initial) = 3%nat
  /\ total (run evs initial) = 3.
Proof.
  intros files evs.
  assert (Hevs : in_range_run evs initial = true) by (vm_compute; reflexivity).
  split; [exact Hevs|]. split; [|split; vm_compute; reflexivity].
  exact (proj1 (proj2 (progress_within_total evs Hevs))).
Defined.

(** C4 as stated fails.  (1) A [meta] event may announce a total below
    the number of results already stored: three files, two results, then
    [meta] with [total_files = 1] leaves 2 records against a total of 1.
    (2) The stream is closed by the completion effect, which runs only
    after a render: three files, [meta] with [total_files = 2], then the
    results for the indices 0, 1 and 2 before the next render leave 3
    records against a total of 2, and the run complete with them. *)
Lemma progress_exceeds_total_counterexample :
  let f := mkFile "a.png" 10 "image/png" 0 "" in
  let st := run [(2, Stream 0 (result (mkData 0 "ok")));
                 (3, Stream 0 (result (mkData 1 "ok")));
                 (4, Stream 0 (meta 1))]
                (job_start 0 1 [f; f; f] None) in
  let st' := run [(2, Stream 0 (meta 2)); (2, Render); (2, Effect);
                  (3, Stream 0 (result (mkData 0 "ok")));
                  (3, Render); (3, Effect);
                  (4, Stream 0 (result (mkData 1 "ok")));
                  (4, Stream 0 (result (mkData 2 "ok")));
                  (5, Render); (5, Effect)]
                 (job_start 0 1 [f; f; f] None) in
  (total st = 1 /\ progress st = 2%nat
   /\ ~ (Z.of_nat (size (results st)) <= total st))
  /\ (total st' = 2 /\ progress st' = 3%nat /\ status st' = Complete
      /\ ~ (Z.of_nat (size (results st')) <= total st')).
Proof. vm_compute. repeat split; congruence. Qed.

(** *** Failure records *)

(** From a state that has been rendered and whose effect has run: the
    next render and the run of its effect complete the run exactly when
    the cells pass the guard. *)
Lemma render_then_effect t1 t2 st :
  pending st = None ->
  (rendered st = Some (deps st) -> completion_due (deps st) = false) ->
  status (run [(t1, Render); (t2, Effect)] st)
  = if completion_due (deps st) then Complete else status st.
Proof.
  intros Hp Hq. cbn [run].
  assert (Hf : fires Render st = false) by (unfold fires; by rewrite Hp).
  pose proof (deps_unfired t1 Render st (or_introl eq_refl) Hf) as Hd.
  assert (Hs : status (step t1 Render st) = status st)
    by (rewrite status_step; by rewrite Hf).
  destruct (pending_step t1 Render st) as (H1 & _ & H3 & H4).
  rewrite status_step, Hs. unfold fires.
  destruct (decide (rendered st = Some (deps st))) as [E|E].
  - rewrite H3 by (by rewrite H1, Hd). by rewrite Hq.
  - rewrite H4 by (rewrite H1, Hd; congruence). by rewrite Hd.
Qed.

(** C7.  An [error] event that carries a client index (0-based, so not
    negative), dispatched at a live subscription, is stored in the result
    store under that index by the same insertion as a [result] event,
    with the record marked [_error]; it adds to the progress count
    exactly as a result does (by one when the index is new), and leaves
    status and total alone.  The condition of the completion effect
    holds after the error event exactly when it holds after a result
    event for the same index, and from a state that has been rendered
    the next render and effect complete the run after the one exactly
    when they do after the other.  A connection error (an [error] event
    without data) changes neither the status nor the store, the total or
    what is scheduled. *)
Theorem error_event_counts_as_result now es st d :
  dispatches es st = true ->
  0 <= client_index d ->
  let s_err := step now (Stream es (error_event d)) st in
  let s_res := step now (Stream es (result d)) st in
  results s_err = <[client_index d := mkRecord d true]> (results st)
  /\ results s_res = <[client_index d := mkRecord d false]> (results st)
  /\ progress s_err = progress s_res
  /\ progress s_err = match results st !! client_index d with
                       | Some _ => progress st
                       | None => S (progress st)
                       end
  /\ total s_err = total st /\ total s_res = total st
  /\ status s_err = status st
  /\ ((0 < total s_err /\ total s_err <= Z.of_nat (progress s_err)
       /\ (status s_err = Uploading \/ status s_err = Streaming))
      <-> (0 < total s_res /\ total s_res <= Z.of_nat (progress s_res)
           /\ (status s_res = Uploading \/ status s_res = Streaming)))
  /\ (pending st = None -> rendered st = Some (deps st) ->
      completion_due (deps st) = false ->
      forall t1 t2,
        (status (run [(t1, Render); (t2, Effect)] s_err) = Complete
         <-> status (run [(t1, Render); (t2, Effect)] s_res) = Complete)
        /\ (0 < total st -> total st <= Z.of_nat (progress s_err) ->
            status st = Uploading \/ status st = Streaming ->
            status (run [(t1, Render); (t2, Effect)] s_err) = Complete))
  /\ (forall es' rs,
        let s_con := step now (ConnectionError es' rs) st in
        status s_con = status st /\ results s_con = results st
        /\ total s_con = total st
        /\ rendered s_con = rendered st /\ pending s_con = pending st).
Proof.
  intros Hd Hidx s_err s_res.
  assert (Eerr : s_err = setResults
            (fun prev => <[client_index d := mkRecord d true]> prev) st)
    by (by apply step_error_event).
  assert (Eres : s_res = on_result d st) by (by apply step_result_event).
  assert (Hsize : progress s_err = progress s_res).
  { rewrite Eerr, Eres. unfold progress; cbn. apply size_insert_same. }
  assert (Hstat : status s_res = Uploading \/ status s_res = Streaming
                  <-> status st = Uploading \/ status st = Streaming).
  { rewrite Eres. unfold on_result; cbn.
    destruct (decide (status st = Uploading)) as [->|]; [|done].
    split; intros _; [by left | by right]. }
  assert (Hcond : (0 < total s_err /\ total s_err <= Z.of_nat (progress s_err)
       /\ (status s_err = Uploading \/ status s_err = Streaming))
      <-> (0 < total s_res /\ total s_res <= Z.of_nat (progress s_res)
           /\ (status s_res = Uploading \/ status s_res = Streaming))).
  { rewrite Hstat, Hsize. by rewrite Eerr, Eres. }
  assert (Hdue : completion_due (deps s_err) = completion_due (deps s_res)).
  { apply eq_true_iff_eq. rewrite !completion_due_spec. exact Hcond. }
  split_and!.
  - by rewrite Eerr.
  - by rewrite Eres.
  - exact Hsize.
  - rewrite Eerr. unfold progress; cbn.
    destruct (results st !! client_index d) eqn:E.
    + by rewrite map_size_insert_Some.
    + by rewrite map_size_insert_None.
  - by rewrite Eerr.
  - by rewrite Eres.
  - by rewrite Eerr.
  - exact Hcond.
  - intros Hp Hrd Hq t1 t2.
    assert (Rerr : status (run [(t1, Render); (t2, Effect)] s_err)
                   = if completion_due (deps s_err) then Complete else status st).
    { rewrite render_then_effect; [by rewrite Eerr | by rewrite Eerr |].
      rewrite Eerr at 1. cbn [rendered setResults]. rewrite Hrd.
      intros E. assert (E' : deps s_err = deps st) by congruence.
      by rewrite E'. }
    assert (Rres : status (run [(t1, Render); (t2, Effect)] s_res)
                   = if completion_due (deps s_res) then Complete
                     else status s_res).
    { apply render_then_effect; [by rewrite Eres|].
      rewrite Eres at 1. cbn [rendered on_result setResults setStatus].
      rewrite Hrd. intros E0.
      assert (E : deps st = deps s_res) by congruence. clear E0.
      by rewrite <- E. }
    split.
    + rewrite Rerr, Rres, Hdue. destruct (completion_due (deps s_res)); [done|].
      rewrite Eres. unfold on_result; cbn.
      destruct (decide (status st = Uploading)) as [->|]; [|done].
      split; intros; done.
    + intros H1 H2 H3. rewrite Rerr.
      assert (completion_due (deps s_err) = true) as ->; [|done].
      apply completion_due_spec. unfold deps.
      cbn [dep_total dep_size dep_status].
      assert (Ht : total s_err = total st) by (by rewrite Eerr).
      assert (Hs : status s_err = status st) by (by rewrite Eerr).
      rewrite Ht, Hs. unfold progress in H2. tauto.
  - intros es' rs s_con. subst s_con. cbn [step].
    destruct (dispatches es' st); [|done].
    unfold connection_error, onerror, on_error.
    by destruct (readyState es' _) as [[]|].
Qed.

Lemma error_event_counts_as_result_witness :
  let f := mkFile "a.png" 10 "image/png" 0 "" in
  let st := job_start 0 1 [f] None in
  let boom := mkData 0 "boom" in
  dispatches 0 st = true
  /\ 0 <= client_index boom
  /\ progress st = 0%nat
  /\ progress (step 2 (Stream 0 (error_event boom)) st) = 1%nat
  /\ status (run [(3, Render); (4, Effect)]
                 (step 2 (Stream 0 (error_event boom)) st))
     = Complete.
Proof.
  intros f st boom.
  assert (Hd : dispatches 0 st = true) by (vm_compute; reflexivity).
  assert (Hi : 0 <= client_index boom) by (cbn; lia).
  assert (Hp : pending st = None) by (vm_compute; reflexivity).
  assert (Hr : rendered st = Some (deps st)) by (vm_compute; reflexivity).
  assert (Hq : completion_due (deps st) = false) by (vm_compute; reflexivity).
  assert (Ht : 0 < total st) by (vm_compute; reflexivity).
  assert (Hs : status st = Uploading \/ status st = Streaming)
    by (left; vm_compute; reflexivity).
  assert (Hzero : progress st = 0%nat) by (vm_compute; reflexivity).
  assert (Hone : progress (step 2 (Stream 0 (error_event boom)) st) = 1%nat)
    by (vm_compute; reflexivity).
  assert (Hle : total st
                <= Z.of_nat (progress (step 2 (Stream 0 (error_event boom)) st)))
    by (vm_compute; congruence).
  split; [exact Hd|]. split; [exact Hi|]. split; [exact Hzero|].
  split; [exact Hone|].
  clearbody st.
  pose proof (error_event_counts_as_result 2 0%nat st boom Hd Hi)
    as (_ & _ & _ & _ & _ & _ & _ & _ & Hrun & _).
  exact (proj2 (Hrun Hp Hr Hq 3 4) Ht Hle Hs).
Defined.

End ControllerFacts.
(** ** The upload scheduler *)

Section SchedulerFacts.
Import Scheduler.

Lemma outstanding_app t1 t2 :
  outstanding (t1 ++ t2) = outstanding t1 + outstanding t2.
Proof.
  induction t1 as [|a t1 IH]; [cbn; lia|].
  destruct a; cbn [app outstanding]; lia.
Qed.

Lemma bounded_snoc t a :
  bounded t ->
  0 <= outstanding (t ++ [a]) <= Z.of_nat MAX_CONCURRENT ->
  bounded (t ++ [a]).
Proof.
  intros Hb Ha p q E.
  destruct q as [|x q _] using rev_ind.
  - rewrite app_nil_r in E. by subst p.
  - rewrite app_assoc in E. apply app_inj_tail in E as [E _].
    by apply (Hb p q).
Qed.

Lemma uploads_app t1 t2 : uploads (t1 ++ t2) = uploads t1 ++ uploads t2.
Proof. apply omap_app. Qed.

Lemma settles_app t1 t2 : settles (t1 ++ t2) = settles t1 ++ settles t2.
Proof. apply omap_app. Qed.

Lemma logged_app t1 t2 : logged (t1 ++ t2) = logged t1 ++ logged t2.
Proof. apply omap_app. Qed.

Lemma filter_out_absent (l : list nat) x :
  x ∉ l -> filter (fun p => p <> x) l = l.
Proof.
  induction l as [|y l IH]; [done|].
  intros [Hne Hx]%not_elem_of_cons.
  rewrite filter_cons_True by congruence. by rewrite IH.
Qed.

Lemma filter_out_one (l : list nat) x :
  NoDup l -> x ∈ l -> l ≡ₚ x :: filter (fun p => p <> x) l.
Proof.
  induction 1 as [|y l Hy Hnd IH]; [by intros ?%elem_of_nil|].
  intros [->|Hx]%elem_of_cons.
  - rewrite filter_cons_False by tauto. by rewrite filter_out_absent.
  - assert (y <> x) by (intros ->; done).
    rewrite filter_cons_True by done.
    rewrite (IH Hx) at 1. apply Permutation_swap.
Qed.

Lemma race_winner (l : list nat) w : l <> [] -> nth (w mod length l) l O ∈ l.
Proof.
  intros Hl. assert (length l <> O) by (by destruct l).
  assert (Hlt : (w mod length l < length l)%nat) by (by apply Nat.mod_upper_bound).
  destruct (lookup_lt_is_Some_2 l _ Hlt) as [x Hx].
  rewrite (nth_lookup_Some _ _ _ _ Hx). by eapply list_elem_of_lookup_2.
Qed.

(** The chunks partition the files, each paired with its position, in
    order. *)
Lemma make_chunk_take_drop (files : list File) (i k : nat) :
  (i + k <= length files)%nat ->
  omap (fun j => f ← files !! j; Some (f, j)) (seq i k)
  = take k (drop i (imap (fun j f => (f, j)) files)).
Proof.
  revert i. induction k as [|k IH]; intros i Hik; [by rewrite take_0|].
  destruct (lookup_lt_is_Some_2 files i ltac:(lia)) as [f Hf].
  cbn [seq omap list_omap]. rewrite Hf. cbn [mbind option_bind].
  rewrite (drop_S _ (f, i) i) by (by rewrite list_lookup_imap, Hf).
  cbn [take]. f_equal. apply IH. lia.
Qed.

Lemma chunks_from_concat (files : list File) (fuel : nat) : forall i,
  (length files - i <= fuel)%nat ->
  concat (chunks_from fuel i files) = drop i (imap (fun j f => (f, j)) files).
Proof.
  set (indexed := imap (fun j f => (f, j)) files).
  assert (Hlen : length indexed = length files) by apply length_imap.
  induction fuel as [|fuel IH]; intros i Hfuel; cbn [chunks_from].
  - rewrite drop_ge by lia. done.
  - destruct (i <? length files)%nat eqn:Hi.
    + apply Nat.ltb_lt in Hi. cbn [concat]. rewrite IH by (unfold CHUNK_SIZE; lia).
      unfold make_chunk. rewrite make_chunk_take_drop by lia. fold indexed.
      unfold CHUNK_SIZE.
      destruct (decide (i + 3 <= length files)%nat) as [Hfull|Hlast].
      * replace (Nat.min (i + 3) (length files) - i)%nat with 3%nat by lia.
        rewrite <- (take_drop 3 (drop i indexed)) at 2.
        by rewrite drop_drop.
      * rewrite (drop_ge indexed (i + 3)) by lia.
        rewrite take_ge by (rewrite length_drop; lia).
        by rewrite app_nil_r.
    + apply Nat.ltb_ge in Hi. rewrite drop_ge by lia. done.
Qed.

Lemma make_chunks_partition (files : list File) :
  concat (make_chunks files) = imap (fun j f => (f, j)) files.
Proof. unfold make_chunks. rewrite chunks_from_concat by lia. apply drop_0. Qed.

Example make_chunks_seven :
  let f := mkFile "a.png" 10 "image/png" 0 "" in
  map (map snd) (make_chunks (replicate 7 f)) = [[0; 1; 2]; [3; 4; 5]; [6]]%nat.
Proof. reflexivity. Qed.

Context (net : Network) (chunks : list Chunk).

Lemma invariant_init : invariant net chunks (mkLoop [] O []).
Proof.
  assert (Hb : bounded []).
  { intros p q E. symmetry in E. apply app_eq_nil in E as [-> _]. cbn. lia. }
  unfold invariant; cbn [active chunkIndex trace].
  split; [lia|]. split; [done|]. split; [done|]. split; [cbn; lia|].
  split; [done|]. split; [done|]. split; [by intros ?%elem_of_nil|].
  split; [|done]. by intros idx c ?%elem_of_nil.
Qed.

Lemma invariant_issue s :
  invariant net chunks s ->
  (length (active s) < MAX_CONCURRENT)%nat ->
  (chunkIndex s < length chunks)%nat ->
  invariant net chunks
    (mkLoop (active s ++ [chunkIndex s]) (S (chunkIndex s))
       (trace s ++ [UploadChunk (chunkIndex s)
                      (default [] (chunks !! chunkIndex s))])).
Proof.
  intros (H1 & H2 & H3 & H4 & H5 & H6 & H7 & H8 & H9) Hroom Hmore.
  unfold invariant; cbn [active chunkIndex trace].
  rewrite uploads_app, settles_app, logged_app, outstanding_app, length_app.
  cbn [uploads settles logged omap outstanding length].
  rewrite !app_nil_r, seq_S, H2. cbn [Nat.add].
  assert (Hout : outstanding (trace s) + (0 + 1)
                 = Z.of_nat (length (active s) + 1)) by lia.
  split_and!; try done; try lia.
  - rewrite <- H3. by rewrite <- !app_assoc, (Permutation_app_comm [_]).
  - apply bounded_snoc; [done|]. rewrite outstanding_app. cbn [outstanding].
    unfold MAX_CONCURRENT in *. lia.
  - rewrite elem_of_app, list_elem_of_singleton.
    intros [?|?]; [by apply H7 | discriminate].
  - intros idx c. rewrite elem_of_app, list_elem_of_singleton.
    intros [?|[= -> ->]]; [by apply H8|].
    destruct (lookup_lt_is_Some_2 chunks _ Hmore) as [c Hc].
    unfold Chunk in *. by rewrite Hc.
Qed.

Lemma invariant_race w s :
  invariant net chunks s -> active s <> [] ->
  invariant net chunks (race net w s)
  /\ S (length (active (race net w s))) = length (active s)
  /\ chunkIndex (race net w s) = chunkIndex s.
Proof.
  intros (H1 & H2 & H3 & H4 & H5 & H6 & H7 & H8 & H9) Hne.
  unfold race. set (idx := nth _ _ _).
  assert (Hidx : idx ∈ active s) by (by apply race_winner).
  assert (Hnd : NoDup (active s)).
  { assert (Hall : NoDup (active s ++ settles (trace s)))
      by (rewrite H3; apply NoDup_seq).
    by apply NoDup_app in Hall as [? _]. }
  pose proof (filter_out_one _ _ Hnd Hidx) as Hperm.
  assert (Hlen : S (length (filter (fun p => p <> idx) (active s)))
                 = length (active s)).
  { by rewrite (Permutation_length Hperm). }
  assert (Hperm' : (filter (fun p => p <> idx) (active s)
                      ++ settles (trace s) ++ [idx])
                   ≡ₚ seq 0 (chunkIndex s)).
  { rewrite <- H3.
    transitivity ((idx :: filter (fun p => p <> idx) (active s))
                  ++ settles (trace s)); [|by rewrite <- Hperm].
    rewrite app_assoc. symmetry. apply Permutation_cons_append. }
  split; [|done].
  unfold invariant; cbn [active chunkIndex trace].
  rewrite !uploads_app, !settles_app, !logged_app, !outstanding_app.
  cbn [uploads settles logged omap outstanding].
  assert (Hb : bounded (trace s ++ [Settled idx])).
  { apply bounded_snoc; [done|]. rewrite outstanding_app. cbn [outstanding].
    unfold MAX_CONCURRENT in *. lia. }
  rewrite omap_app; cbn [omap].
  destruct (upload_result net idx) as [err|] eqn:Hres; cbn.
  - rewrite !app_nil_r. split_and!; try done; try lia.
    + rewrite (cons_middle (Settled idx)), app_assoc.
      apply bounded_snoc; [done|].
      rewrite !outstanding_app. cbn [outstanding].
      unfold MAX_CONCURRENT in *. lia.
    + rewrite elem_of_app, !elem_of_cons, elem_of_nil.
      intros [?|[?|[?|[]]]]; [by apply H7 | discriminate | discriminate].
    + intros i c. rewrite elem_of_app, !elem_of_cons, elem_of_nil.
      intros [?|[?|[?|[]]]]; try done. by apply H8.
    + by rewrite H9, Hres.
  - rewrite !app_nil_r. split_and!; try done; try lia.
    + rewrite !elem_of_app, !list_elem_of_singleton.
      intros [?|?]; [by apply H7 | discriminate].
    + intros i c. rewrite !elem_of_app, !list_elem_of_singleton.
      intros [?|?]; try done. by apply H8.
    + rewrite H9, Hres. cbn. by rewrite app_nil_r.
Qed.

Lemma top_up_spec fuel : forall s,
  invariant net chunks s ->
  (MAX_CONCURRENT - length (active s) <= fuel)%nat ->
  exists s', top_up fuel chunks s = Some s'
    /\ invariant net chunks s'
    /\ remaining chunks s' = remaining chunks s
    /\ ((chunkIndex s < length chunks)%nat \/ active s <> [] -> active s' <> []).
Proof.
  induction fuel as [|fuel IH]; intros s Hinv Hfuel; cbn [top_up];
    destruct ((length (active s) <? MAX_CONCURRENT)%nat
              && (chunkIndex s <? length chunks)%nat) eqn:Hguard.
  - apply andb_true_iff in Hguard as [?%Nat.ltb_lt _]. lia.
  - exists s. split_and!; try done. intros [Hmore|?]; [|done].
    apply andb_false_iff in Hguard as [Hfull%Nat.ltb_ge|?%Nat.ltb_ge]; [|lia].
    intros E. rewrite E in Hfull. cbn in Hfull. unfold MAX_CONCURRENT in Hfull. lia.
  - apply andb_true_iff in Hguard as [Hroom%Nat.ltb_lt Hmore%Nat.ltb_lt].
    destruct (IH _ (invariant_issue s Hinv Hroom Hmore)) as (s' & E & Hinv' & Hrem & Hact).
    { cbn [active]. rewrite length_app. cbn [length]. lia. }
    exists s'. split_and!; try done.
    + rewrite Hrem. unfold remaining; cbn [active chunkIndex].
      rewrite length_app. cbn [length]. lia.
    + intros _. apply Hact. right. cbn [active]. by intros [? ?]%app_eq_nil.
  - exists s. split_and!; try done. intros [Hmore|?]; [|done].
    apply andb_false_iff in Hguard as [Hfull%Nat.ltb_ge|?%Nat.ltb_ge]; [|lia].
    intros E. rewrite E in Hfull. cbn in Hfull. unfold MAX_CONCURRENT in Hfull. lia.
Qed.

Lemma main_loop_spec fuel : forall ws s,
  invariant net chunks s ->
  (remaining chunks s <= fuel)%nat ->
  exists s', main_loop fuel net chunks ws s = Some s'
    /\ invariant net chunks s'
    /\ chunkIndex s' = length chunks /\ active s' = [].
Proof.
  assert (Hexit : forall s, invariant net chunks s ->
            ((chunkIndex s <? length chunks)%nat
             || (0 <? length (active s))%nat) = false ->
            chunkIndex s = length chunks /\ active s = []).
  { intros s (H1 & _) [?%Nat.ltb_ge Hz%Nat.ltb_ge]%orb_false_iff.
    split; [lia|]. destruct (active s); [done|]. cbn in Hz. lia. }
  induction fuel as [|fuel IH]; intros ws s Hinv Hfuel; cbn [main_loop];
    destruct ((chunkIndex s <? length chunks)%nat
              || (0 <? length (active s))%nat) eqn:Hguard;
    try (exists s; destruct (Hexit s Hinv Hguard); by split_and!).
  - apply orb_true_iff in Hguard as [?%Nat.ltb_lt|?%Nat.ltb_lt];
      unfold remaining in Hfuel; lia.
  - assert (Hwork : (chunkIndex s < length chunks)%nat \/ active s <> []).
    { apply orb_true_iff in Hguard as [?%Nat.ltb_lt|Hz%Nat.ltb_lt]; [by left|].
      right. intros E. rewrite E in Hz. cbn in Hz. lia. }
    destruct (top_up_spec MAX_CONCURRENT s Hinv) as (s1 & E & Hinv1 & Hrem & Hact);
      [lia|].
    rewrite E. cbn [mbind option_bind].
    specialize (Hact Hwork).
    assert (Hpos : (0 <? length (active s1))%nat = true).
    { apply Nat.ltb_lt. destruct (active s1); [done|]. cbn. lia. }
    rewrite Hpos.
    destruct (invariant_race (hd O ws) s1 Hinv1 Hact) as (Hinv2 & Hlen & Hidx).
    apply IH; [done|]. unfold remaining in *. rewrite Hidx. lia.
Qed.

End SchedulerFacts.

Section SchedulerClaims.
Import Scheduler Controller.

(** The loop ends, in a state that satisfies the invariant with the
    backlog and the in-flight list empty, and [completeJob] decides how
    the promise settles. *)
Lemma uploadAllChunked_runs (net : Network) (files : list File) :
  exists s,
    uploadAllChunked net files
      = Some (trace s ++ [CompleteJob], complete_result net)
    /\ invariant net (make_chunks files) s
    /\ chunkIndex s = length (make_chunks files) /\ active s = [].
Proof.
  destruct (main_loop_spec net (make_chunks files) (length (make_chunks files))
              (winners net) (mkLoop [] O [])
              (invariant_init net (make_chunks files)))
    as (s & E & Hinv & Hidx & Hact).
  { unfold remaining; cbn. lia. }
  exists s. unfold uploadAllChunked. rewrite E. by cbn [mbind option_bind].
Qed.

(** C3.  For every file list and every behaviour of the network,
    [uploadAllChunked] runs to its end; the chunks are the files with
    their positions, in order; at every point of its trace
    between 0 and 4 chunk requests are outstanding; the [uploadChunk]
    calls are those of the chunks 0, 1, ..., n-1, each once and with its
    own chunk; every one of them is seen to settle, once; the failures
    logged are exactly those of the failed chunks, and the loop goes on
    after them; and [completeJob] is called once, as the last action, when
    nothing is outstanding. *)
Theorem uploadAllChunked_schedule (net : Network) (files : list File) :
  let chunks := make_chunks files in
  exists t,
    uploadAllChunked net files = Some (t ++ [CompleteJob], complete_result net)
    /\ concat chunks = imap (fun j f => (f, j)) files
    /\ bounded (t ++ [CompleteJob])
    /\ uploads t = seq 0 (length chunks)
    /\ (forall idx c, UploadChunk idx c ∈ t -> chunks !! idx = Some c)
    /\ settles t ≡ₚ seq 0 (length chunks)
    /\ logged t = omap (fun i => pair i <$> upload_result net i) (settles t)
    /\ (CompleteJob ∉ t)
    /\ outstanding t = 0.
Proof.
  intros chunks.
  destruct (uploadAllChunked_runs net files)
    as (s & E & (H1 & H2 & H3 & H4 & H5 & H6 & H7 & H8 & H9) & Hidx & Hact).
  fold chunks in H1, H8, Hidx.
  exists (trace s). rewrite Hidx in *. rewrite Hact in *.
  cbn [app length] in *.
  split_and!; try done; [apply make_chunks_partition|].
  apply bounded_snoc; [done|]. rewrite outstanding_app. cbn [outstanding].
  unfold MAX_CONCURRENT. lia.
Qed.

(** C10.  The promise of [uploadAllChunked] settles as [completeJob]
    does, whatever happened to the chunk uploads: their failures are
    logged inside the loop and never reach the caller.  When it is
    rejected, the [catch] block of [analyze] runs in whatever state the
    controller is then: the status becomes [error], the message is
    recorded, and the referenced subscription is closed and forgotten.
    When it is resolved, nothing follows. *)
Theorem completeJob_failure_is_fatal (net : Network) (files : list File)
    (now : Z) (st : State) :
  exists t,
    uploadAllChunked net files = Some (t, complete_result net)
    /\ match complete_result net with
       | Some message =>
           let st' := step now (UploadAllSettled (Some message)) st in
           status st' = Error
           /\ error st' = Some message
           /\ eventSourceRef st' = None
           /\ (forall es, eventSourceRef st = Some es -> dispatches es st' = false)
       | None => step now (UploadAllSettled None) st = st
       end.
Proof.
  destruct (uploadAllChunked_runs net files) as (s & E & _).
  exists (trace s ++ [CompleteJob]). split; [done|].
  destruct (complete_result net) as [message|]; [|done].
  cbn zeta. cbn [step analyze_uploaded]. unfold analyze_catch, close_current.
  destruct st as [s0 r tt e d u el ref start dp src rd pd]; cbn.
  destruct ref as [es0|]; cbn; split_and!; try done.
  intros es [= <-]. apply closed_never_dispatches.
Qed.

End SchedulerClaims.

(** ** The image preprocessor *)

Section CompressFacts.
Import Compress.

Lemma remove_extension_match (s e : string) :
  e <> EmptyString -> no_dot e = true ->
  remove_extension (s +:+ "." +:+ e) = Some s.
Proof.
  intros He Hnd.
  assert (Htail : remove_extension e = None).
  { clear He. induction e as [|c e IH]; [done|]. cbn in *.
    apply andb_true_iff in Hnd as [Hc Hnd]. rewrite (IH Hnd).
    apply negb_true_iff in Hc. by rewrite Hc. }
  induction s as [|c s IH].
  - change ("" +:+ "." +:+ e) with (String "." e). cbn.
    rewrite Htail, Hnd. by destruct e.
  - change (String c s +:+ "." +:+ e) with (String c (s +:+ "." +:+ e)).
    cbn [remove_extension]. by rewrite IH.
Qed.

(** C6.  For an image file that decodes to [w] x [h]: when the longest
    edge exceeds 1600 both canvas dimensions are the rounded products with
    the one factor [1600 / max w h], computed in binary64 as the code
    does; both are at most 1600, the longest is exactly 1600, and each
    differs from the exact scaled value by at most one half.  Otherwise
    they are [w] and [h].  The canvas is encoded as [image/jpeg] at
    quality 0.85, and when the encoder delivers, the resulting file
    carries these bytes, the name with its extension replaced by [.jpg],
    type [image/jpeg] and the original [lastModified]. *)
Theorem compressImage_resizes (b : Browser) (file : File) (w h : Z) :
  String.prefix "image/" (type file) = true ->
  decode b file = Loaded w h ->
  0 <= w < 2 ^ 32 -> 0 <= h < 2 ^ 32 ->
  let longest := Z.max w h in
  let scale := binary64 (inject_Z MAX_DIMENSION / inject_Z longest) in
  let w' := (canvas_size w h).1 in
  let h' := (canvas_size w h).2 in
  (1600 < longest ->
     w' = Math_round (binary64 (inject_Z w * scale))
     /\ h' = Math_round (binary64 (inject_Z h * scale))
     /\ 0 <= w' <= 1600 /\ 0 <= h' <= 1600 /\ Z.max w' h' = 1600
     /\ - longest <= 2 * (w' * longest - 1600 * w) <= longest
     /\ - longest <= 2 * (h' * longest - 1600 * h) <= longest)
  /\ (longest <= 1600 -> w' = w /\ h' = h)
  /\ JPEG_QUALITY = binary64 0.85
  /\ (forall blob,
        getContext_2d b w' h' = true ->
        toBlob b file w' h' "image/jpeg" JPEG_QUALITY = Some blob ->
        exists out,
          compressImage b file = Resolved out
          /\ content out = blob
          /\ name out = stem (name file) +:+ ".jpg"
          /\ (forall s e, name file = s +:+ "." +:+ e -> e <> EmptyString ->
                no_dot e = true -> name out = s +:+ ".jpg")
          /\ type out = "image/jpeg"%string
          /\ lastModified out = lastModified file).
Proof.
  intros Himg Hdec Hw Hh longest scale w' h'.
  assert (Hbig : 1600 < longest ->
            w' = Math_round (binary64 (inject_Z w * scale))
            /\ h' = Math_round (binary64 (inject_Z h * scale))).
  { intros Hl. subst w' h'. unfold canvas_size. fold longest.
    destruct (MAX_DIMENSION <? longest) eqn:E;
      [done | unfold MAX_DIMENSION in E; lia]. }
  split_and!.
  - intros Hl. destruct (Hbig Hl) as [Ew Eh].
    assert (HL : 1600 < longest < 2 ^ 32) by (subst longest; lia).
    pose proof (round_scaled_float w longest HL ltac:(subst longest; lia)) as Bw.
    pose proof (round_scaled_float h longest HL ltac:(subst longest; lia)) as Bh.
    cbn zeta in Bw, Bh. change (inject_Z 1600) with (inject_Z MAX_DIMENSION) in Bw, Bh.
    fold scale in Bw, Bh. rewrite <- Ew in Bw. rewrite <- Eh in Bh.
    assert (w <= longest /\ h <= longest /\ (w = longest \/ h = longest))
      as (? & ? & ?) by (subst longest; lia).
    split_and!; try done; nia.
  - intros Hl. subst w' h'. unfold canvas_size. fold longest.
    destruct (MAX_DIMENSION <? longest) eqn:E;
      [unfold MAX_DIMENSION in E; lia | done].
  - reflexivity.
  - intros blob Hctx Hblob. unfold compressImage. rewrite Himg, Hdec. cbn [negb].
    subst w' h'. destruct (canvas_size w h) as [cw ch]; cbn [fst snd] in *.
    rewrite Hctx, Hblob. eexists. split; [reflexivity|]. cbn.
    split_and!; try done.
    intros s e -> He Hnd. unfold stem. by rewrite remove_extension_match.
Qed.

Lemma compressImage_resizes_witness :
  let file := mkFile "label.front.png" 5000 "image/png" 1700000000 "PNG" in
  let b := mkBrowser (fun _ => Loaded 3712 145) (fun _ _ => true)
                     (fun _ _ _ _ _ => Some "JPEG"%string) in
  String.prefix "image/" (type file) = true
  /\ decode b file = Loaded 3712 145
  /\ canvas_size 3712 145 = (1600, 62)
  /\ canvas_size 4000 3000 = (1600, 1200)
  /\ - 3712 <= 2 * ((canvas_size 3712 145).2 * 3712 - 1600 * 145) <= 3712
  /\ compressImage b file
     = Resolved (mkFile "label.front.jpg" 4 "image/jpeg" 1700000000 "JPEG").
Proof.
  intros file b.
  split; [reflexivity|]. split; [reflexivity|].
  split; [vm_compute; reflexivity|]. split; [vm_compute; reflexivity|].
  split; [|vm_compute; reflexivity].
  assert (Hl : 1600 < Z.max 3712 145) by (vm_compute; reflexivity).
  exact (proj2 (proj2 (proj2 (proj2 (proj2 (proj2
    (proj1 (compressImage_resizes b file 3712 145 eq_refl eq_refl
              ltac:(lia) ltac:(lia)) Hl))))))).
Defined.

(** How [compressImage] ends, case by case: it never rejects; it
    resolves with the original file for a type that is not an image, when
    the decoder reports an error and when [toBlob] calls back with
    [null]; and it stays pending exactly when the image decodes and
    [getContext] returns [null]. *)
Lemma compressImage_outcomes (b : Browser) (file : File) :
  (forall reason, compressImage b file <> Rejected reason)
  /\ (String.prefix "image/" (type file) = false ->
      compressImage b file = Resolved file)
  /\ (decode b file = DecodeError -> compressImage b file = Resolved file)
  /\ (forall w h,
        decode b file = Loaded w h ->
        getContext_2d b (canvas_size w h).1 (canvas_size w h).2 = true ->
        toBlob b file (canvas_size w h).1 (canvas_size w h).2
               "image/jpeg" JPEG_QUALITY = None ->
        compressImage b file = Resolved file)
  /\ (compressImage b file = Pending
      <-> String.prefix "image/" (type file) = true
          /\ exists w h, decode b file = Loaded w h
               /\ getContext_2d b (canvas_size w h).1 (canvas_size w h).2
                  = false).
Proof.
  unfold compressImage. split_and!.
  - intros reason. destruct (String.prefix _ _); cbn [negb]; [|done].
    destruct (decode b file) as [|w h]; [done|].
    destruct (canvas_size w h) as [cw ch].
    destruct (getContext_2d b cw ch); [|done].
    by destruct (toBlob b file cw ch _ _).
  - by intros ->.
  - intros ->. by destruct (String.prefix _ _).
  - intros w h -> Hctx Hblob. destruct (String.prefix _ _); cbn [negb]; [|done].
    destruct (canvas_size w h) as [cw ch]; cbn [fst snd] in *.
    by rewrite Hctx, Hblob.
  - destruct (String.prefix _ _); cbn [negb]; [|by split; [|intros []]].
    destruct (decode b file) as [|w h].
    { split; [done|]. by intros (_ & w & h & ? & _). }
    destruct (canvas_size w h) as [cw ch] eqn:Ec.
    destruct (getContext_2d b cw ch) eqn:Hctx.
    + split.
      * by destruct (toBlob b file cw ch _ _).
      * intros (_ & w0 & h0 & [= <- <-] & H). rewrite Ec in H. cbn in H.
        congruence.
    + split; [|done]. intros _. split; [done|]. exists w, h.
      rewrite Ec. by cbn.
Qed.

(** C5: the fallback to the original file misses one case.  The code
    resolves with the original when the image does not decode and when
    [toBlob] delivers no blob, but it uses the result of
    [canvas.getContext('2d')] without a test: when that is [null],
    [ctx.drawImage] throws inside [img.onload], nobody settles the
    promise, and the caller never receives a file.  (The image below is
    a well-formed PNG that decodes to 4000 x 3000.) *)
Theorem compressImage_null_context_never_settles :
  let png := mkFile "label.png" 5000 "image/png" 1700000000 "PNG" in
  let b := mkBrowser (fun _ => Loaded 4000 3000) (fun _ _ => false)
                     (fun _ _ _ _ _ => Some "JPEG"%string) in
  compressImage b png = Pending
  /\ compressImage b png <> Resolved png.
Proof. split; [vm_compute; reflexivity | by vm_compute]. Qed.

End CompressFacts.

(** ** File acceptance *)

Section UploadZoneFacts.
Import UploadZone.

Lemma existing_key_spec (prev : list File) (f : File) :
  file_key f ∉ (list_to_set (map file_key prev) : gset string)
  <-> Forall (fun g => file_key g <> file_key f) prev.
Proof.
  rewrite elem_of_list_to_set, list_elem_of_In, in_map_iff, Forall_forall.
  split.
  - intros Hno g Hg%list_elem_of_In E. apply Hno. by exists g.
  - intros Hall (g & E & Hg%list_elem_of_In). by apply (Hall g).
Qed.

Lemma filter_all {A} (P : A -> Prop) `{forall x, Decision (P x)} (l : list A) :
  Forall P l -> filter P l = l.
Proof.
  induction 1 as [|x l Hx Hl IH]; [done|].
  rewrite filter_cons_True by done. by rewrite IH.
Qed.

(** C8.  Of an incoming list, the files of an allowed image type whose
    name-and-size key is not among the accepted files are the candidates.
    When the accepted files and the candidates together number more than
    300 nothing is added and the accepted list is returned as it was;
    otherwise the candidates are appended, in their order, after the
    accepted files (all the incoming files, when all are images that are
    not yet accepted). *)
Theorem addFiles_ceiling (fileList prev : list File) :
  let images := filter (fun f => type f ∈ ALLOWED_IMAGE_TYPES) fileList in
  let deduped :=
    filter (fun f => Forall (fun g => file_key g <> file_key f) prev) images in
  ((300 < length prev + length deduped)%nat -> addFiles fileList prev = prev)
  /\ ((length prev + length deduped <= 300)%nat ->
      addFiles fileList prev = prev ++ deduped)
  /\ ((length prev <= 300)%nat -> (length (addFiles fileList prev) <= 300)%nat)
  /\ (Forall (fun f => type f ∈ ALLOWED_IMAGE_TYPES) fileList ->
      Forall (fun f => Forall (fun g => file_key g <> file_key f) prev) fileList ->
      (length prev + length fileList <= 300)%nat ->
      addFiles fileList prev = prev ++ fileList).
Proof.
  intros images deduped.
  assert (E : addFiles fileList prev
              = if (MAX_FILES <? length (prev ++ deduped))%nat
                then prev else prev ++ deduped).
  { unfold addFiles. fold images.
    destruct (length images =? 0)%nat eqn:Hz.
    - apply Nat.eqb_eq, nil_length_inv in Hz.
      subst deduped. rewrite Hz, filter_nil, app_nil_r.
      by destruct (MAX_FILES <? length prev)%nat.
    - unfold merge_images.
      rewrite (list_filter_iff _ (fun f => Forall (fun g => file_key g <> file_key f) prev));
        [done|]. intros f. apply existing_key_spec. }
  rewrite E, length_app. unfold MAX_FILES.
  split_and!; intros H.
  - by rewrite (proj2 (Nat.ltb_lt _ _) H).
  - by rewrite (proj2 (Nat.ltb_ge _ _) H).
  - destruct (300 <? _)%nat eqn:Hc; [done|].
    apply Nat.ltb_ge in Hc. by rewrite length_app.
  - intros Hfresh Hroom.
    assert (deduped = fileList) as ->.
    { subst deduped images. by rewrite (filter_all _ fileList H), filter_all. }
    by rewrite (proj2 (Nat.ltb_ge _ _) Hroom).
Qed.

Lemma addFiles_ceiling_witness :
  let img n := mkFile n 10 "image/png" 0 "" in
  let prev := replicate 299 (img "old.png") in
  (300 < 299 + 2)%nat
  /\ addFiles [img "a.png"; img "b.png"] prev = prev
  /\ (299 + 1 <= 300)%nat
  /\ addFiles [img "a.png"; img "old.png"] prev = prev ++ [img "a.png"].
Proof.
  intros img prev.
  pose proof (addFiles_ceiling [img "a.png"; img "b.png"] prev) as (Hrej & _ & _).
  pose proof (addFiles_ceiling [img "a.png"; img "old.png"] prev) as (_ & Hacc & _).
  split; [lia|]. split; [apply Hrej; vm_compute; lia|].
  split; [lia|]. etrans; [apply Hacc; vm_compute; lia|]. vm_compute. reflexivity.
Defined.

(** *** Reference rows *)

Lemma starts_clean_trimStart s : starts_clean (trimStart s) = true.
Proof.
  induction s as [|c s IH]; [done|]. cbn [trimStart].
  destruct (is_space c) eqn:E; [done|]. cbn [starts_clean]. by rewrite E.
Qed.

Lemma starts_clean_trimEnd s :
  starts_clean s = true -> starts_clean (trimEnd s) = true.
Proof.
  destruct s as [|c s]; [done|]. cbn [starts_clean trimEnd]. intros Hc.
  destruct (trimEnd s); [|done].
  apply negb_true_iff in Hc. rewrite Hc. cbn [starts_clean]. by rewrite Hc.
Qed.

Lemma ends_clean_trimEnd s : ends_clean (trimEnd s) = true.
Proof.
  induction s as [|c s IH]; [done|]. cbn [trimEnd].
  destruct (trimEnd s) as [|c' s'] eqn:E.
  - destruct (is_space c) eqn:Ec; [done|]. cbn [ends_clean]. by rewrite Ec.
  - done.
Qed.

Lemma trim_clean s :
  starts_clean (trim s) = true /\ ends_clean (trim s) = true.
Proof.
  split; [apply starts_clean_trimEnd, starts_clean_trimStart
         | apply ends_clean_trimEnd].
Qed.

Lemma clean_row_omap row : clean_row row = omap (kept row) RECOGNIZED_CSV_COLUMNS.
Proof.
  unfold clean_row.
  assert (H : forall cols acc,
            fold_left
              (fun out col =>
                 match get row col with
                 | Some v => if negb (String.eqb v "")
                             then out ++ [(col, trim v)] else out
                 | None => out
                 end) cols acc
            = acc ++ omap (kept row) cols).
  { induction cols as [|col cols IH]; intros acc; cbn [fold_left omap list_omap].
    - by rewrite app_nil_r.
    - rewrite IH. unfold kept at 2.
      destruct (get row col) as [v|]; [|done].
      destruct (negb (String.eqb v "")); [|done].
      by rewrite <- app_assoc. }
  apply (H _ []).
Qed.

(** The rows that [handleCsvFile] accepts: at most 300 input rows; each
    output row is the cleaning of an input row, has a non-empty
    [label_id], has only recognized keys, and each of its values is the
    trimmed form of a non-empty cell. *)
Lemma handleCsvFile_rows (r : ParseResult) (rows : list Row) :
  handleCsvFile_complete r = inr rows ->
  (length (data r) <= 300)%nat
  /\ forall row, row ∈ rows ->
       truthy (get row "label_id") = true
       /\ exists orig, orig ∈ data r /\ row = clean_row orig
          /\ forall k v, (k, v) ∈ row ->
               k ∈ RECOGNIZED_CSV_COLUMNS
               /\ starts_clean v = true /\ ends_clean v = true
               /\ exists cell, get orig k = Some cell
                    /\ cell <> EmptyString /\ v = trim cell.
Proof.
  unfold handleCsvFile_complete.
  destruct (errors r); [|done]. destruct (data r) as [|row0 rest] eqn:Hdata; [done|].
  destruct (negb _); [done|].
  destruct (MAX_FILES <? _)%nat eqn:Hmax; [done|].
  rewrite <- Hdata. intros [= <-]. apply Nat.ltb_ge in Hmax.
  split; [by rewrite Hdata|].
  intros row Hrow. apply list_elem_of_In, List.filter_In in Hrow as [Hin Hlabel].
  apply in_map_iff in Hin as (orig & <- & Horig%list_elem_of_In).
  split; [done|]. exists orig. split_and!; try done.
  intros k v. rewrite clean_row_omap, list_elem_of_omap.
  intros (col & Hcol & Hkept). unfold kept in Hkept.
  destruct (get orig col) as [cell|] eqn:Hcell; [|done].
  destruct (String.eqb cell "") eqn:Hne; [done|]. cbn in Hkept.
  injection Hkept as <- <-. destruct (trim_clean cell).
  split_and!; try done. exists cell. split_and!; try done.
  by intros ->.
Qed.

(** C9: the cleaning of a row tests a cell against the empty string
    before trimming it, so a cell of white space only is kept, as the
    empty string.  (The row below is well formed and has its [label_id].) *)
Theorem csv_blank_cell_kept :
  handleCsvFile_complete
    (mkParse [] [[("label_id", "A1"); ("brand_name", "   ")]%string])
  = inr [[("label_id", "A1"); ("brand_name", "")]%string].
Proof. reflexivity. Qed.

End UploadZoneFacts.
